(** * IndexSystem: the facade and call-dispatch core of the symbol index

    A shallow embedding of [lib/Index/IndexSystem.cpp]: the asynchronous
    delegate wrapper, the path-canonicalising queries, the USR-deduplicated
    transitive closures and [foreachSymbolCallOccurrence].

    Collaborators ([SymbolIndex], [FilePathIndex], the work queue) are
    interfaces of the facade; they appear here as records of query functions.
    Callbacks passed to an enumeration are closures over mutable locals, so an
    enumeration threads the captured locals next to the observable world. *)

From Stdlib Require Import List String NArith Bool Arith Lia.
Import ListNotations.
Local Open Scope string_scope.
Local Open Scope list_scope.

Set Implicit Arguments.

(* ================================================================== *)
(** ** Symbols, roles, occurrences *)

(** Modelled from the spec: the closed enumeration of symbol kinds of
    [IndexStoreDB/Core/Symbol.h].  The facade tests only [InstanceMethod],
    [Protocol] and [Extension]; the other kinds are opaque values to it. *)
Inductive SymbolKind : Type :=
| Unknown | Module_ | Namespace | NamespaceAlias | Macro | Enum | Struct
| Class_ | Protocol | Extension | Union | TypeAlias | Function_ | Variable_
| Parameter_ | Field | EnumConstant | InstanceMethod | ClassMethod
| StaticMethod | InstanceProperty | ClassProperty | StaticProperty
| Constructor | Destructor | ConversionFunction | Concept | CommentTag.

Definition SymbolKind_eqb (a b : SymbolKind) : bool :=
  match a, b with
  | Unknown, Unknown | Module_, Module_ | Namespace, Namespace
  | NamespaceAlias, NamespaceAlias | Macro, Macro | Enum, Enum
  | Struct, Struct | Class_, Class_ | Protocol, Protocol
  | Extension, Extension | Union, Union | TypeAlias, TypeAlias
  | Function_, Function_ | Variable_, Variable_ | Parameter_, Parameter_
  | Field, Field | EnumConstant, EnumConstant
  | InstanceMethod, InstanceMethod | ClassMethod, ClassMethod
  | StaticMethod, StaticMethod | InstanceProperty, InstanceProperty
  | ClassProperty, ClassProperty | StaticProperty, StaticProperty
  | Constructor, Constructor | Destructor, Destructor
  | ConversionFunction, ConversionFunction | Concept, Concept
  | CommentTag, CommentTag => true
  | _, _ => false
  end.

(** A symbol handle: its USR and its kind. *)
Record Symbol : Type := mkSymbol {
  getUSR : string;
  getSymbolKind : SymbolKind
}.

(** Modelled from the spec: the role set of [IndexStoreDB/Core/Symbol.h], a
    bitset in which each role is one bit and distinct roles are distinct
    bits. *)
Definition SymbolRoleSet : Type := N.

Module SymbolRole.
Definition Declaration : SymbolRoleSet := N.shiftl 1 0.
Definition Definition_ : SymbolRoleSet := N.shiftl 1 1.
Definition Reference : SymbolRoleSet := N.shiftl 1 2.
Definition Read : SymbolRoleSet := N.shiftl 1 3.
Definition Write_ : SymbolRoleSet := N.shiftl 1 4.
Definition Call : SymbolRoleSet := N.shiftl 1 5.
Definition Dynamic : SymbolRoleSet := N.shiftl 1 6.
Definition AddressOf : SymbolRoleSet := N.shiftl 1 7.
Definition Implicit : SymbolRoleSet := N.shiftl 1 8.
Definition RelationChildOf : SymbolRoleSet := N.shiftl 1 9.
Definition RelationBaseOf : SymbolRoleSet := N.shiftl 1 10.
Definition RelationOverrideOf : SymbolRoleSet := N.shiftl 1 11.
Definition RelationReceivedBy : SymbolRoleSet := N.shiftl 1 12.
Definition RelationCalledBy : SymbolRoleSet := N.shiftl 1 13.
Definition RelationExtendedBy : SymbolRoleSet := N.shiftl 1 14.
Definition RelationAccessorOf : SymbolRoleSet := N.shiftl 1 15.
Definition RelationContainedBy : SymbolRoleSet := N.shiftl 1 16.
End SymbolRole.

(** [OptionSet::containsAny]: some bit of [other] is set. *)
Definition containsAny (roles other : SymbolRoleSet) : bool :=
  negb (N.eqb (N.land roles other) 0).

(** [OptionSet::contains]: every bit of [other] is set. *)
Definition contains (roles other : SymbolRoleSet) : bool :=
  N.eqb (N.land roles other) other.

(** A relation of an occurrence: the related symbol and the relation roles. *)
Record SymbolRelation : Type := mkRelation {
  relRoles : SymbolRoleSet;
  relSymbol : Symbol
}.

Record SymbolOccurrence : Type := mkOccurrence {
  getSymbol : Symbol;
  getRoles : SymbolRoleSet;
  getRelations : list SymbolRelation
}.

(** Modelled from the spec: [SymbolOccurrence::foreachRelatedSymbol] of
    [IndexStoreDB/Core/Symbol.h] hands the receiver, in order, the symbol of
    every relation whose roles meet the requested ones.  The receiver returns
    nothing, so the enumeration is the list of symbols it is called on. *)
Definition relatedSymbols (Roles : SymbolRoleSet) (Occur : SymbolOccurrence)
  : list Symbol :=
  map relSymbol
      (filter (fun Rel => containsAny (relRoles Rel) Roles) (getRelations Occur)).

(* ================================================================== *)
(** ** The state-and-fuel monad *)

(** A computation over a state [St] that may run out of fuel. *)
Definition M (St A : Type) : Type := St -> option (A * St).

Definition ret {St A} (a : A) : M St A := fun s => Some (a, s).

Definition bind {St A B} (m : M St A) (k : A -> M St B) : M St B :=
  fun s => match m s with
           | Some (a, s') => k a s'
           | None => None
           end.

Definition outOfFuel {St A} : M St A := fun _ => None.

Declare Scope monad_scope.
Delimit Scope monad_scope with monad.
Notation "x <- c1 ;; c2" := (bind c1 (fun x => c2))
  (at level 61, c1 at next level, right associativity) : monad_scope.
Notation "' pat <- c1 ;; c2" :=
  (bind c1 (fun x => match x with pat => c2 end))
  (at level 61, pat pattern, c1 at next level, right associativity) : monad_scope.
Notation "c1 ;;; c2" := (bind c1 (fun _ => c2))
  (at level 61, right associativity) : monad_scope.
Local Open Scope monad_scope.

(** An enumeration with receiver-driven early termination.  The receiver is a
    closure: [B] holds the locals it captures by reference.  The result is
    [true] when the enumeration ran to its end. *)
Fixpoint enumerate {St A B} (xs : list A) (recv : A -> B -> M St (bool * B))
         (b : B) : M St (bool * B) :=
  match xs with
  | [] => ret (true, b)
  | x :: xs' =>
      '(Continue, b') <- recv x b ;;
      if Continue then enumerate xs' recv b' else ret (false, b')
  end.

(** A receiver that captures nothing. *)
Definition plain {St A} (recv : A -> M St bool) : A -> unit -> M St (bool * unit) :=
  fun x _ => Continue <- recv x ;; ret (Continue, tt).

(** A loop whose body cannot stop it ([for (auto &x : xs)], or a [void]
    receiver). *)
Fixpoint forEach {St A B} (xs : list A) (body : A -> B -> M St B) (b : B)
  : M St B :=
  match xs with
  | [] => ret b
  | x :: xs' => b' <- body x b ;; forEach xs' body b'
  end.

(* ================================================================== *)
(** ** The symbol sub-index and the observable world *)

(** The [SymbolIndex] collaborator: for a USR and a role set, the occurrences
    each of its two enumerations yields, in the order it yields them. *)
Record SymbolIndex : Type := mkSymbolIndex {
  occurrencesByUSR : string -> SymbolRoleSet -> list SymbolOccurrence;
  relatedOccurrencesByUSR : string -> SymbolRoleSet -> list SymbolOccurrence
}.

(** What a call of the facade does that its caller or its collaborators can
    see: a query sent to the symbol index, or an invocation of the caller's
    receiver. *)
Inductive Event : Type :=
| QueryOccurrences (USR : string) (RoleSet : SymbolRoleSet)
| QueryRelatedOccurrences (USR : string) (RoleSet : SymbolRoleSet)
| ReceiverCall (Occur : SymbolOccurrence).

Definition isQuery (e : Event) : bool :=
  match e with ReceiverCall _ => false | _ => true end.

(** The receiver invocations of a trace, in order. *)
Fixpoint receiverCalls (t : list Event) : list SymbolOccurrence :=
  match t with
  | [] => []
  | ReceiverCall o :: t' => o :: receiverCalls t'
  | _ :: t' => receiverCalls t'
  end.

Section Facade.

(** [Symbol::isCallable], declared in [IndexStoreDB/Core/Symbol.h]. *)
Variable isCallable : Symbol -> bool.

(** The symbol sub-index the facade forwards to. *)
Variable SymIndex : SymbolIndex.

(** The caller's receiver: a callback with a state of its own. *)
Variable RS : Type.
Variable Receiver : SymbolOccurrence -> RS -> bool * RS.

Record World : Type := mkWorld {
  recvState : RS;
  trace : list Event
}.

Definition logEvent (e : Event) (w : World) : World :=
  mkWorld (recvState w) (trace w ++ [e]).

Definition emit (e : Event) : M World unit :=
  fun w => Some (tt, logEvent e w).

(** Invoking the caller's receiver on an occurrence. *)
Definition callReceiver (Occur : SymbolOccurrence) : M World bool :=
  fun w => let (Continue, s') := Receiver Occur (recvState w) in
           Some (Continue, mkWorld s' (trace w ++ [ReceiverCall Occur])).

(** [IndexSystemImpl::foreachSymbolOccurrenceByUSR]: forwarded to the symbol
    index. *)
Definition foreachSymbolOccurrenceByUSR {B} (USR : string)
           (RoleSet : SymbolRoleSet)
           (recv : SymbolOccurrence -> B -> M World (bool * B)) (b : B)
  : M World (bool * B) :=
  emit (QueryOccurrences USR RoleSet) ;;;
  enumerate (occurrencesByUSR SymIndex USR RoleSet) recv b.

(** [IndexSystemImpl::foreachRelatedSymbolOccurrenceByUSR]. *)
Definition foreachRelatedSymbolOccurrenceByUSR {B} (USR : string)
           (RoleSet : SymbolRoleSet)
           (recv : SymbolOccurrence -> B -> M World (bool * B)) (b : B)
  : M World (bool * B) :=
  emit (QueryRelatedOccurrences USR RoleSet) ;;;
  enumerate (relatedOccurrencesByUSR SymIndex USR RoleSet) recv b.

(** [containsSymWithUSR] on a vector of symbols ([std::find_if]). *)
Definition containsSymWithUSR (Sym : Symbol) (Syms : list Symbol) : bool :=
  existsb (fun FoundSym => String.eqb (getUSR FoundSym) (getUSR Sym)) Syms.

(** [containsSymWithUSR] on a vector of occurrences. *)
Definition containsOccurWithUSR (Sym : Symbol) (Syms : list SymbolOccurrence)
  : bool :=
  existsb (fun FoundSym => String.eqb (getUSR (getSymbol FoundSym)) (getUSR Sym))
          Syms.

(** [getBaseMethodsOrClassesImpl]; [BaseSyms] is the vector passed by
    reference, [fuel] bounds the depth of the recursion. *)
Fixpoint getBaseMethodsOrClassesImpl (fuel : nat) (Sym : Symbol)
         (BaseSyms : list Symbol) : M World (list Symbol) :=
  match fuel with
  | O => outOfFuel
  | S fuel' =>
      let addEntry (NewSym : Symbol) (BaseSyms : list Symbol)
        : M World (list Symbol) :=
        if negb (containsSymWithUSR NewSym BaseSyms)
        then getBaseMethodsOrClassesImpl fuel' NewSym (BaseSyms ++ [NewSym])
        else ret BaseSyms in
      if SymbolKind_eqb (getSymbolKind Sym) InstanceMethod then
        '(_, BaseSyms') <-
          foreachSymbolOccurrenceByUSR (getUSR Sym) SymbolRole.RelationOverrideOf
            (fun Occur BaseSyms =>
               BaseSyms' <- forEach (relatedSymbols SymbolRole.RelationOverrideOf Occur)
                                    addEntry BaseSyms ;;
               ret (true, BaseSyms'))
            BaseSyms ;;
        ret BaseSyms'
      else
        '(_, BaseSyms') <-
          foreachRelatedSymbolOccurrenceByUSR (getUSR Sym) SymbolRole.RelationBaseOf
            (fun Occur BaseSyms =>
               BaseSyms' <- addEntry (getSymbol Occur) BaseSyms ;;
               ret (true, BaseSyms'))
            BaseSyms ;;
        ret BaseSyms'
  end.

(** [getAllRelatedOccursImpl]. *)
Fixpoint getAllRelatedOccursImpl (fuel : nat) (Sym : Symbol)
         (RoleSet : SymbolRoleSet) (RelSyms : list SymbolOccurrence)
  : M World (list SymbolOccurrence) :=
  match fuel with
  | O => outOfFuel
  | S fuel' =>
      let addEntry (NewSym : SymbolOccurrence) (RelSyms : list SymbolOccurrence)
        : M World (list SymbolOccurrence) :=
        if negb (containsOccurWithUSR (getSymbol NewSym) RelSyms)
        then getAllRelatedOccursImpl fuel' (getSymbol NewSym) RoleSet
                                     (RelSyms ++ [NewSym])
        else ret RelSyms in
      '(_, RelSyms') <-
        foreachRelatedSymbolOccurrenceByUSR (getUSR Sym) RoleSet
          (fun Occur RelSyms =>
             RelSyms' <- addEntry Occur RelSyms ;;
             ret (true, RelSyms'))
          RelSyms ;;
      ret RelSyms'
  end.

(** [IndexSystemImpl::getBaseMethodsOrClasses]. *)
Definition getBaseMethodsOrClasses (fuel : nat) (Sym : Symbol)
  : M World (list Symbol) :=
  getBaseMethodsOrClassesImpl fuel Sym [].

(** The body of the loop "Replace extensions with the types they extend":
    the receiver overwrites [clsSym] and stops the enumeration. *)
Definition replaceExtension (clsSym : Symbol) : M World Symbol :=
  if SymbolKind_eqb (getSymbolKind clsSym) Extension then
    '(_, clsSym') <-
      foreachRelatedSymbolOccurrenceByUSR (getUSR clsSym)
        SymbolRole.RelationExtendedBy
        (fun Occur _ => ret (false, getSymbol Occur))
        clsSym ;;
    ret clsSym'
  else ret clsSym.

(** [for (auto &clsSym : clsSyms)]: the vector is rewritten in place. *)
Fixpoint replaceExtensions (clsSyms : list Symbol) : M World (list Symbol) :=
  match clsSyms with
  | [] => ret []
  | clsSym :: rest =>
      clsSym' <- replaceExtension clsSym ;;
      rest' <- replaceExtensions rest ;;
      ret (clsSym' :: rest')
  end.

(** The loop that fills [ClassSyms]: the bases of each receiver class, then
    the class itself. *)
Definition collectClassSyms (fuel : nat) (clsSyms : list Symbol)
  : M World (list Symbol) :=
  forEach clsSyms
          (fun clsSym ClassSyms =>
             ClassSyms' <- getBaseMethodsOrClassesImpl fuel clsSym ClassSyms ;;
             ret (ClassSyms' ++ [clsSym]))
          [].

(** The flag [PossiblyCalledViaDispatch] as the receiver of
    [foreachRelatedSymbol] leaves it. *)
Definition receivedByClass (ClassSyms : list Symbol) (Occur : SymbolOccurrence)
  : bool :=
  fold_left (fun PossiblyCalledViaDispatch RelSym =>
               if containsSymWithUSR RelSym ClassSyms then true
               else PossiblyCalledViaDispatch)
            (relatedSymbols SymbolRole.RelationReceivedBy Occur)
            false.

(** The receiver handed to the index for the calls of a base method. *)
Definition dispatchReceiver (ClassSyms : list Symbol) (Occur : SymbolOccurrence)
  : M World bool :=
  let IsDynamic := containsAny (getRoles Occur) SymbolRole.Dynamic in
  if negb IsDynamic then ret true
  else
    let PossiblyCalledViaDispatch :=
      if negb (contains (getRoles Occur) SymbolRole.RelationReceivedBy)
      then true
      else receivedByClass ClassSyms Occur in
    if PossiblyCalledViaDispatch then callReceiver Occur else ret true.

(** The relation under which the receiver classes of the callee are found. *)
Definition relationToUse (Callee : SymbolOccurrence) : SymbolRoleSet :=
  if containsAny (getRoles Callee) SymbolRole.Call
  then SymbolRole.RelationReceivedBy
  else SymbolRole.RelationChildOf.

(** The part of [foreachSymbolCallOccurrence] that follows the rewriting of
    [clsSyms]: the test for an empty vector, the protocol path and the walk of
    the class hierarchy. *)
Definition dynamicCallers (fuel : nat) (Sym : Symbol) (clsSyms : list Symbol)
  : M World bool :=
  match clsSyms with
  | [] => ret true
  | clsSym0 :: _ =>
      if SymbolKind_eqb (getSymbolKind clsSym0) Protocol then
        overrideSyms <-
          getAllRelatedOccursImpl fuel Sym SymbolRole.RelationOverrideOf [] ;;
        '(Continue, _) <-
          enumerate overrideSyms
            (fun occur _ =>
               foreachSymbolOccurrenceByUSR (getUSR (getSymbol occur))
                 SymbolRole.Call (plain callReceiver) tt)
            tt ;;
        ret Continue
      else
        ClassSyms <- collectClassSyms fuel clsSyms ;;
        BaseMethodSyms <- getBaseMethodsOrClasses fuel Sym ;;
        '(Continue, _) <-
          enumerate BaseMethodSyms
            (fun MethodSym _ =>
               foreachSymbolOccurrenceByUSR (getUSR MethodSym)
                 SymbolRole.Call (plain (dispatchReceiver ClassSyms)) tt)
            tt ;;
        ret Continue
  end.

(** [IndexSystemImpl::foreachSymbolCallOccurrence]. *)
Definition foreachSymbolCallOccurrence (fuel : nat) (Callee : SymbolOccurrence)
  : M World bool :=
  let Sym := getSymbol Callee in
  if negb (isCallable Sym) then ret false
  else
    '(Continue, _) <-
      foreachSymbolOccurrenceByUSR (getUSR Sym) SymbolRole.Call
                                   (plain callReceiver) tt ;;
    if negb Continue then ret false
    else if negb (containsAny (getRoles Callee) SymbolRole.Dynamic) then ret true
    else
      clsSyms <- replaceExtensions (relatedSymbols (relationToUse Callee) Callee) ;;
      dynamicCallers fuel Sym clsSyms.

(* ------------------------------------------------------------------ *)
(** *** Notions the statements are phrased with *)

(** The candidates [getBaseMethodsOrClassesImpl] hands to [addEntry] for a
    symbol, in the order it meets them. *)
Definition candidates (Sym : Symbol) : list Symbol :=
  if SymbolKind_eqb (getSymbolKind Sym) InstanceMethod then
    flat_map (relatedSymbols SymbolRole.RelationOverrideOf)
             (occurrencesByUSR SymIndex (getUSR Sym) SymbolRole.RelationOverrideOf)
  else
    map getSymbol
        (relatedOccurrencesByUSR SymIndex (getUSR Sym) SymbolRole.RelationBaseOf).

(** The query [getBaseMethodsOrClassesImpl] sends for a symbol. *)
Definition candidatesQuery (Sym : Symbol) : Event :=
  if SymbolKind_eqb (getSymbolKind Sym) InstanceMethod then
    QueryOccurrences (getUSR Sym) SymbolRole.RelationOverrideOf
  else
    QueryRelatedOccurrences (getUSR Sym) SymbolRole.RelationBaseOf.

(** [addEntry] of [getBaseMethodsOrClassesImpl], with the fuel left for the
    recursion. *)
Definition addEntry (fuel : nat) (NewSym : Symbol) (BaseSyms : list Symbol)
  : M World (list Symbol) :=
  if negb (containsSymWithUSR NewSym BaseSyms)
  then getBaseMethodsOrClassesImpl fuel NewSym (BaseSyms ++ [NewSym])
  else ret BaseSyms.

(** [addEntry] of [getAllRelatedOccursImpl]. *)
Definition addOccurEntry (fuel : nat) (RoleSet : SymbolRoleSet)
           (NewSym : SymbolOccurrence) (RelSyms : list SymbolOccurrence)
  : M World (list SymbolOccurrence) :=
  if negb (containsOccurWithUSR (getSymbol NewSym) RelSyms)
  then getAllRelatedOccursImpl fuel (getSymbol NewSym) RoleSet (RelSyms ++ [NewSym])
  else ret RelSyms.

(** A symbol reached from [Sym] through one or more candidate steps. *)
Inductive Reach (Sym : Symbol) : Symbol -> Prop :=
| Reach_step c : In c (candidates Sym) -> Reach Sym c
| Reach_trans c x : In c (candidates Sym) -> Reach c x -> Reach Sym x.

(** The index is finite: every symbol it yields, as the symbol of an
    occurrence or as a related symbol, has its USR in the list [U]. *)
Definition USRsWithin (U : list string) : Prop :=
  forall USR RoleSet Occur,
    In Occur (occurrencesByUSR SymIndex USR RoleSet) \/
    In Occur (relatedOccurrencesByUSR SymIndex USR RoleSet) ->
    In (getUSR (getSymbol Occur)) U /\
    forall Rel, In Rel (getRelations Occur) -> In (getUSR (relSymbol Rel)) U.

(** The USRs of [U] that no element of [L] carries: what is left to add. *)
Definition remaining {X} (key : X -> string) (U : list string) (L : list X) : nat :=
  List.length (filter (fun u => negb (existsb (fun x => String.eqb (key x) u) L)) U).

(** [w'] differs from [w] by index queries only: the receiver was not
    invoked. *)
Definition queriesOnly (w w' : World) : Prop :=
  recvState w' = recvState w /\
  exists qs, trace w' = trace w ++ qs /\ forallb isQuery qs = true.

(** The Call occurrences the index yields for a USR. *)
Definition callsOf (USR : string) : list SymbolOccurrence :=
  occurrencesByUSR SymIndex USR SymbolRole.Call.

(** The caller's receiver handed the occurrences of a list one after the
    other until it answers [false]: the answer [true] means it never did. *)
Fixpoint deliver (Occurs : list SymbolOccurrence) (w : World) : bool * World :=
  match Occurs with
  | [] => (true, w)
  | Occur :: rest =>
      let (Continue, s') := Receiver Occur (recvState w) in
      let w' := mkWorld s' (trace w ++ [ReceiverCall Occur]) in
      if Continue then deliver rest w' else (false, w')
  end.

(** One Call query for [USR], then the delivery of [Occurs]. *)
Definition queryAndDeliver (USR : string) (Occurs : list SymbolOccurrence)
           (w : World) : bool * World :=
  deliver Occurs (logEvent (QueryOccurrences USR SymbolRole.Call) w).

(** For each USR in turn, one Call query and the delivery of the selected
    calls, stopping at the first delivery the receiver cuts short. *)
Fixpoint deliverEach (select : string -> list SymbolOccurrence)
         (USRs : list string) (w : World) : bool * World :=
  match USRs with
  | [] => (true, w)
  | USR :: rest =>
      let (Continue, w') := queryAndDeliver USR (select USR) w in
      if Continue then deliverEach select rest w' else (false, w')
  end.

(** The outcome of a delivery as an enumeration with a receiver that
    captures nothing reports it. *)
Definition unitResult (r : bool * World) : option ((bool * unit) * World) :=
  Some ((fst r, tt), snd r).

(** The filter of the class-hierarchy path in the words of the
    specification: the occurrence is dynamic, and either it has no
    received-by role or one of its received-by symbols is in [ClassSyms]. *)
Definition admitted (ClassSyms : list Symbol) (Occur : SymbolOccurrence) : bool :=
  containsAny (getRoles Occur) SymbolRole.Dynamic &&
  (negb (contains (getRoles Occur) SymbolRole.RelationReceivedBy) ||
   existsb (fun RelSym => containsSymWithUSR RelSym ClassSyms)
           (relatedSymbols SymbolRole.RelationReceivedBy Occur)).

(** The rewriting of one receiver class in the words of the specification:
    an extension becomes the symbol of the first occurrence related to it by
    [RelationExtendedBy], when there is one. *)
Definition extendedType (s : Symbol) : Symbol :=
  if SymbolKind_eqb (getSymbolKind s) Extension then
    match relatedOccurrencesByUSR SymIndex (getUSR s)
                                  SymbolRole.RelationExtendedBy with
    | Occur :: _ => getSymbol Occur
    | [] => s
    end
  else s.

(** The receiver-class set [C] after extension rewriting. *)
Definition receiverClasses (Callee : SymbolOccurrence) : list Symbol :=
  map extendedType (relatedSymbols (relationToUse Callee) Callee).

(** The queries the rewriting sends: one per extension, in order. *)
Definition extensionQueries (clsSyms : list Symbol) : list Event :=
  map (fun s => QueryRelatedOccurrences (getUSR s) SymbolRole.RelationExtendedBy)
      (filter (fun s => SymbolKind_eqb (getSymbolKind s) Extension) clsSyms).

(** The outcome [r] of a closure run from the list [L] in the world [w]: it
    returns [L] with new elements appended, all of them satisfying [P]; it
    puts no key twice in a list that had none twice; the keys of [must] and
    of the successors of every new element are in the returned list; and it
    only queries the index. *)
Definition grows {X} (key : X -> string) (succ : X -> list X) (P : X -> Prop)
           (must : list X) (L : list X) (w : World)
           (r : option (list X * World)) : Prop :=
  exists added w',
    r = Some (L ++ added, w') /\
    queriesOnly w w' /\
    (NoDup (map key L) -> NoDup (map key (L ++ added))) /\
    (forall x, In x added -> P x) /\
    (forall x c, In x added -> In c (succ x) ->
                 In (key c) (map key (L ++ added))) /\
    (forall c, In c must -> In (key c) (map key (L ++ added))).

(** A list of symbols that holds, by USR, every candidate of its elements. *)
Definition closedUnderCandidates (L : list Symbol) : Prop :=
  forall x c, In x L -> In c (candidates x) -> In (getUSR c) (map getUSR L).

(** In a list of symbols a USR identifies a symbol: whatever is reached from
    an element of the list and carries the USR of an element has its kind. *)
Definition kindByUSR (L : list Symbol) : Prop :=
  forall x x0 c,
    In x L -> In x0 L -> Reach x0 c -> getUSR x = getUSR c ->
    getSymbolKind x = getSymbolKind c.

(** The occurrences [getAllRelatedOccursImpl] meets for the symbol of an
    occurrence. *)
Definition relatedOf (RoleSet : SymbolRoleSet) (o : SymbolOccurrence)
  : list SymbolOccurrence :=
  relatedOccurrencesByUSR SymIndex (getUSR (getSymbol o)) RoleSet.

(** An occurrence reached from [Sym] by related-occurrence steps under
    [RoleSet]. *)
Inductive ReachOccur (RoleSet : SymbolRoleSet) (Sym : Symbol)
  : SymbolOccurrence -> Prop :=
| ReachOccur_step o :
    In o (relatedOccurrencesByUSR SymIndex (getUSR Sym) RoleSet) ->
    ReachOccur RoleSet Sym o
| ReachOccur_trans o x :
    In o (relatedOccurrencesByUSR SymIndex (getUSR Sym) RoleSet) ->
    ReachOccur RoleSet (getSymbol o) x ->
    ReachOccur RoleSet Sym x.


(** The query [getAllRelatedOccursImpl] sends for the symbol of an
    occurrence. *)
Definition relatedQuery (RoleSet : SymbolRoleSet) (USR : string) : Event :=
  QueryRelatedOccurrences USR RoleSet.

End Facade.

(* ================================================================== *)
(** ** The asynchronous delegate *)

(** Modelled from the spec: the descriptor of a unit handed to the delegate
    ([StoreUnitInfo] of [IndexStoreDB/Index/StoreUnitInfo.h]): its name and
    its main file. *)
Record StoreUnitInfo : Type := mkStoreUnitInfo {
  UnitName : string;
  MainFilePath : string
}.

(** [llvm::sys::TimePoint<>]: a point in time, as a count of ticks. *)
Definition TimePoint : Type := N.

(** The two classes of out-of-date hints. *)
Inductive OutOfDateTriggerHint : Type :=
| DependentFileOutOfDateTriggerHint (FilePath : string)
| DependentUnitOutOfDateTriggerHint (UnitName : string)
                                    (DepHint : OutOfDateTriggerHint).

(** [originalFileTrigger] of both classes. *)
Fixpoint originalFileTrigger (hint : OutOfDateTriggerHint) : string :=
  match hint with
  | DependentFileOutOfDateTriggerHint FilePath => FilePath
  | DependentUnitOutOfDateTriggerHint _ DepHint => originalFileTrigger DepHint
  end.

(** [description] of both classes. *)
Fixpoint description (hint : OutOfDateTriggerHint) : string :=
  match hint with
  | DependentFileOutOfDateTriggerHint FilePath => FilePath
  | DependentUnitOutOfDateTriggerHint UnitName DepHint =>
      "unit(" ++ UnitName ++ ") -> " ++ description DepHint
  end.

(** An invocation of a method of [IndexSystemDelegate], with its arguments. *)
Inductive DelegateCall : Type :=
| ProcessingAddedPending (NumActions : N)
| ProcessingCompleted (NumActions : N)
| ProcessedStoreUnit (unitInfo : StoreUnitInfo)
| UnitIsOutOfDate (unitInfo : StoreUnitInfo) (outOfDateModTime : TimePoint)
                  (hint : OutOfDateTriggerHint) (synchronous : bool).

(** Modelled from the spec: the serial [WorkQueue] of
    [IndexStoreDB/Support/Concurrency.h], a single-consumer queue served in
    the order of dispatch: the tasks dispatched and not yet run, oldest
    first.  A task of this wrapper is a call to make on the user delegate,
    its arguments copied into it. *)
Definition WorkQueue : Type := list DelegateCall.

(** Modelled from the spec: [WorkQueue::dispatch] puts the task at the back
    of the queue and returns. *)
Definition dispatch (task : DelegateCall) (Queue : WorkQueue) : WorkQueue :=
  Queue ++ [task].

(** [AsyncIndexDelegate]: the user delegate [Other], null or seen through the
    calls it has received so far, and the queue. *)
Record AsyncIndexDelegate : Type := mkAsyncIndexDelegate {
  Other : option (list DelegateCall);
  Queue : WorkQueue
}.

(** A call made on the user delegate by the running thread. *)
Definition invokeOther (call : DelegateCall) (d : AsyncIndexDelegate)
  : AsyncIndexDelegate :=
  mkAsyncIndexDelegate (option_map (fun received => received ++ [call]) (Other d))
                       (Queue d).

(** [Queue.dispatch(...)] on the wrapper's queue. *)
Definition enqueue (task : DelegateCall) (d : AsyncIndexDelegate)
  : AsyncIndexDelegate :=
  mkAsyncIndexDelegate (Other d) (dispatch task (Queue d)).

(** [AsyncIndexDelegate::processingAddedPending]. *)
Definition processingAddedPending (NumActions : N) (d : AsyncIndexDelegate)
  : AsyncIndexDelegate :=
  match Other d with
  | None => d
  | Some _ => enqueue (ProcessingAddedPending NumActions) d
  end.

(** [AsyncIndexDelegate::processingCompleted]. *)
Definition processingCompleted (NumActions : N) (d : AsyncIndexDelegate)
  : AsyncIndexDelegate :=
  match Other d with
  | None => d
  | Some _ => enqueue (ProcessingCompleted NumActions) d
  end.

(** [AsyncIndexDelegate::processedStoreUnit]. *)
Definition processedStoreUnit (unitInfo : StoreUnitInfo) (d : AsyncIndexDelegate)
  : AsyncIndexDelegate :=
  match Other d with
  | None => d
  | Some _ => enqueue (ProcessedStoreUnit unitInfo) d
  end.

(** [AsyncIndexDelegate::unitIsOutOfDate]. *)
Definition unitIsOutOfDate (unitInfo : StoreUnitInfo)
           (outOfDateModTime : TimePoint) (hint : OutOfDateTriggerHint)
           (synchronous : bool) (d : AsyncIndexDelegate) : AsyncIndexDelegate :=
  match Other d with
  | None => d
  | Some _ =>
      if synchronous then
        invokeOther (UnitIsOutOfDate unitInfo outOfDateModTime hint true) d
      else
        enqueue (UnitIsOutOfDate unitInfo outOfDateModTime hint false) d
  end.

(** The worker of the queue runs the oldest task. *)
Definition runNextTask (d : AsyncIndexDelegate) : AsyncIndexDelegate :=
  match Queue d with
  | [] => d
  | task :: rest => invokeOther task (mkAsyncIndexDelegate (Other d) rest)
  end.

(** [AsyncIndexDelegate::_wait].  Modelled from the spec:
    [WorkQueue::dispatchSync] returns once the tasks dispatched before it
    have run, in their order. *)
Definition _wait (d : AsyncIndexDelegate) : AsyncIndexDelegate :=
  fold_left (fun d task => invokeOther task d) (Queue d)
            (mkAsyncIndexDelegate (Other d) []).

(* ================================================================== *)
(** ** Queries keyed by a path *)

(** A canonical path, the key of the path sub-index. *)
Record CanonicalFilePath : Type := mkCanonicalFilePath {
  getPath : string
}.

(** The [FilePathIndex] collaborator: its canonicalisation, and what its
    queries yield for a canonical path. *)
Record FilePathIndex : Type := mkFilePathIndex {
  getCanonicalPath : string -> CanonicalFilePath;
  knownFile : CanonicalFilePath -> bool;
  mainUnitsContainingFile : CanonicalFilePath -> list StoreUnitInfo;
  filesIncludingFile : CanonicalFilePath -> list (CanonicalFilePath * N);
  filesIncludedByFile : CanonicalFilePath -> list (CanonicalFilePath * N)
}.

Section PathQueries.

Variable PathIndex : FilePathIndex.

(** The state of the caller's receiver. *)
Variable St : Type.

(** [IndexSystemImpl::isKnownFile]. *)
Definition isKnownFile (filePath : string) : bool :=
  let canonPath := getCanonicalPath PathIndex filePath in
  knownFile PathIndex canonPath.

(** [IndexSystemImpl::foreachMainUnitContainingFile]. *)
Definition foreachMainUnitContainingFile (filePath : string)
           (receiver : StoreUnitInfo -> M St bool) : M St bool :=
  let canonPath := getCanonicalPath PathIndex filePath in
  '(Continue, _) <-
    enumerate (mainUnitsContainingFile PathIndex canonPath) (plain receiver) tt ;;
  ret Continue.

(** [IndexSystemImpl::foreachFileIncludingFile]. *)
Definition foreachFileIncludingFile (TargetPath : string)
           (Receiver : CanonicalFilePath -> N -> M St bool) : M St bool :=
  let canonTargetPath := getCanonicalPath PathIndex TargetPath in
  '(Continue, _) <-
    enumerate (filesIncludingFile PathIndex canonTargetPath)
              (plain (fun '(SourcePath, Line) => Receiver SourcePath Line)) tt ;;
  ret Continue.

(** [IndexSystemImpl::foreachFileIncludedByFile]. *)
Definition foreachFileIncludedByFile (SourcePath : string)
           (Receiver : CanonicalFilePath -> N -> M St bool) : M St bool :=
  let canonSourcePath := getCanonicalPath PathIndex SourcePath in
  '(Continue, _) <-
    enumerate (filesIncludedByFile PathIndex canonSourcePath)
              (plain (fun '(TargetPath, Line) => Receiver TargetPath Line)) tt ;;
  ret Continue.

End PathQueries.

(* ================================================================== *)
(** ** A finite index and the scenarios of the specification *)

(** The union of a list of roles. *)
Definition rolesOf (rs : list SymbolRoleSet) : SymbolRoleSet :=
  fold_right N.lor 0%N rs.

(** Whether an occurrence has a relation to the symbol of USR [USR] under one
    of the roles of [RoleSet]. *)
Definition hasRelationTo (USR : string) (RoleSet : SymbolRoleSet)
           (Occur : SymbolOccurrence) : bool :=
  existsb (fun Rel => String.eqb (getUSR (relSymbol Rel)) USR &&
                      containsAny (relRoles Rel) RoleSet)
          (getRelations Occur).

(** A symbol index over a finite store of occurrences: the occurrences of a
    USR with one of the roles asked for, and the occurrences related to a USR
    under one of them, in the order of the store. *)
Definition storeIndex (store : list SymbolOccurrence) : SymbolIndex :=
  mkSymbolIndex
    (fun USR RoleSet =>
       filter (fun Occur => String.eqb (getUSR (getSymbol Occur)) USR &&
                            containsAny (getRoles Occur) RoleSet)
              store)
    (fun USR RoleSet => filter (hasRelationTo USR RoleSet) store).

(** The USRs a store mentions. *)
Definition storeUSRs (store : list SymbolOccurrence) : list string :=
  flat_map (fun Occur =>
              getUSR (getSymbol Occur) ::
              map (fun Rel => getUSR (relSymbol Rel)) (getRelations Occur))
           store.

(** A callable predicate for the scenarios: functions, methods,
    constructors, destructors and conversion functions are callable. *)
Definition callableKind (Sym : Symbol) : bool :=
  match getSymbolKind Sym with
  | Function_ | InstanceMethod | ClassMethod | StaticMethod
  | Constructor | Destructor | ConversionFunction => true
  | _ => false
  end.

(** A receiver that records what it is handed and never stops. *)
Definition collect (Occur : SymbolOccurrence) (seen : list SymbolOccurrence)
  : bool * list SymbolOccurrence :=
  (true, seen ++ [Occur]).

(** A receiver that records what it is handed and stops at its [k]-th call. *)
Definition stopAt (k : nat) (Occur : SymbolOccurrence)
           (seen : list SymbolOccurrence) : bool * list SymbolOccurrence :=
  (Nat.ltb (S (List.length seen)) k, seen ++ [Occur]).

Module Scenario.
Import SymbolRole.

Definition f := mkSymbol "c:f" Function_.
Definition m := mkSymbol "c:m" InstanceMethod.
Definition m_B := mkSymbol "c:m_B" InstanceMethod.
Definition m_A := mkSymbol "c:m_A" InstanceMethod.
Definition D := mkSymbol "c:D" Class_.
Definition B := mkSymbol "c:B" Class_.
Definition A := mkSymbol "c:A" Class_.
Definition UnrelatedClass := mkSymbol "c:Unrelated" Class_.
Definition E := mkSymbol "c:E" Extension.
Definition P := mkSymbol "c:P" Protocol.
Definition pm := mkSymbol "c:pm" InstanceMethod.
Definition m1 := mkSymbol "c:m1" InstanceMethod.
Definition m2 := mkSymbol "c:m2" InstanceMethod.
Definition K1 := mkSymbol "c:K1" Class_.
Definition K2 := mkSymbol "c:K2" Class_.

(** Declarations: [m] overrides [m_B], which overrides [m_A]; [D] derives
    from [B], which derives from [A]; [E] extends [D]; [m1] implements [pm]
    and [m2] overrides [m1]; [K1] and [K2] are each the base of the other. *)
Definition declM := mkOccurrence m
  (rolesOf [Declaration; Dynamic; RelationChildOf; RelationOverrideOf])
  [mkRelation RelationChildOf D; mkRelation RelationOverrideOf m_B].
Definition declMB := mkOccurrence m_B
  (rolesOf [Declaration; Dynamic; RelationChildOf; RelationOverrideOf])
  [mkRelation RelationChildOf B; mkRelation RelationOverrideOf m_A].
Definition declMA := mkOccurrence m_A
  (rolesOf [Declaration; Dynamic; RelationChildOf])
  [mkRelation RelationChildOf A].
Definition baseOfD := mkOccurrence B
  (rolesOf [Reference; RelationBaseOf]) [mkRelation RelationBaseOf D].
Definition baseOfB := mkOccurrence A
  (rolesOf [Reference; RelationBaseOf]) [mkRelation RelationBaseOf B].
Definition extendedByE := mkOccurrence D
  (rolesOf [Reference; RelationExtendedBy]) [mkRelation RelationExtendedBy E].
Definition extendedByE2 := mkOccurrence UnrelatedClass
  (rolesOf [Reference; RelationExtendedBy]) [mkRelation RelationExtendedBy E].
Definition declM1 := mkOccurrence m1
  (rolesOf [Declaration; Dynamic; RelationOverrideOf])
  [mkRelation RelationOverrideOf pm].
Definition declM2 := mkOccurrence m2
  (rolesOf [Declaration; Dynamic; RelationOverrideOf])
  [mkRelation RelationOverrideOf m1].
Definition baseOfK1 := mkOccurrence K2
  (rolesOf [Reference; RelationBaseOf]) [mkRelation RelationBaseOf K1].
Definition baseOfK2 := mkOccurrence K1
  (rolesOf [Reference; RelationBaseOf]) [mkRelation RelationBaseOf K2].

(** Call sites. *)
Definition callF := mkOccurrence f (rolesOf [Reference; Call]) [].
Definition callX := mkOccurrence m
  (rolesOf [Reference; Call; Dynamic; RelationReceivedBy])
  [mkRelation RelationReceivedBy D].
Definition callY := mkOccurrence m_B
  (rolesOf [Reference; Call; Dynamic; RelationReceivedBy])
  [mkRelation RelationReceivedBy UnrelatedClass].
Definition callStatic := mkOccurrence m_B (rolesOf [Reference; Call]) [].
Definition callZ := mkOccurrence m_A (rolesOf [Reference; Call; Dynamic]) [].
Definition callV := mkOccurrence m_A
  (rolesOf [Reference; Call; Dynamic; RelationReceivedBy])
  [mkRelation RelationReceivedBy A].
Definition callA := mkOccurrence pm
  (rolesOf [Reference; Call; Dynamic; RelationReceivedBy])
  [mkRelation RelationReceivedBy P].
Definition callB := mkOccurrence m1 (rolesOf [Reference; Call]) [].
Definition callC := mkOccurrence m2 (rolesOf [Reference; Call]) [].

Definition store : list SymbolOccurrence :=
  [declM; declMB; declMA; baseOfD; baseOfB; extendedByE; extendedByE2;
   declM1; declM2; baseOfK1; baseOfK2;
   callF; callX; callY; callStatic; callZ; callV; callA; callB; callC].

Definition index : SymbolIndex := storeIndex store.

Definition U : list string := storeUSRs store.

Definition fuel : nat := S (List.length U).

(** Callee occurrences handed to the resolver. *)
Definition calleeViaExtension := mkOccurrence m
  (rolesOf [Reference; Call; Dynamic; RelationReceivedBy])
  [mkRelation RelationReceivedBy E].
Definition calleeNoReceiver := mkOccurrence m
  (rolesOf [Reference; Call; Dynamic]) [].
Definition calleeClass := mkOccurrence D (rolesOf [Reference]) [].

(** The world before the call: the receiver has seen nothing. *)
Definition w0 : World (list SymbolOccurrence) := mkWorld [] [].

(** The resolver with the recording receiver. *)
Definition resolve (Callee : SymbolOccurrence)
  : option (bool * World (list SymbolOccurrence)) :=
  foreachSymbolCallOccurrence callableKind index collect fuel Callee w0.

(** The occurrences the receiver was handed, when the call returned. *)
Definition handed (r : option (bool * World (list SymbolOccurrence)))
  : option (bool * list SymbolOccurrence) :=
  option_map (fun r => (fst r, recvState (snd r))) r.

(** A delegate wrapper around a user delegate that has received nothing, with
    an empty queue, and the arguments of an out-of-date event. *)
Definition idle : AsyncIndexDelegate := mkAsyncIndexDelegate (Some []) [].
Definition unitMain : StoreUnitInfo := mkStoreUnitInfo "main.o" "main.c".
Definition hintMain : OutOfDateTriggerHint :=
  DependentUnitOutOfDateTriggerHint "main.o"
    (DependentFileOutOfDateTriggerHint "util.h").

(** A path sub-index that drops a leading "./" and knows the file "a.c",
    which "b.c" includes at line 3. *)
Definition canonical (raw : string) : CanonicalFilePath :=
  mkCanonicalFilePath
    (if String.prefix "./" raw
     then String.substring 2 (String.length raw - 2) raw
     else raw).
Definition paths : FilePathIndex :=
  mkFilePathIndex
    canonical
    (fun file => String.eqb (getPath file) "a.c")
    (fun file => if String.eqb (getPath file) "a.c" then [unitMain] else [])
    (fun file => if String.eqb (getPath file) "a.c"
                 then [(mkCanonicalFilePath "b.c", 3%N)] else [])
    (fun file => if String.eqb (getPath file) "b.c"
                 then [(mkCanonicalFilePath "a.c", 3%N)] else []).

End Scenario.

(* ================================================================== *)
(** ** The wrapper under its reporters and its worker *)

(** What happens to the wrapper: a reporter calls one of the delegate
    methods, or the worker of the queue runs a task. *)
Inductive Action : Type :=
| Report (call : DelegateCall)
| Work.

(** The delegate method a call stands for, applied to the wrapper. *)
Definition report (call : DelegateCall) (d : AsyncIndexDelegate)
  : AsyncIndexDelegate :=
  match call with
  | ProcessingAddedPending NumActions => processingAddedPending NumActions d
  | ProcessingCompleted NumActions => processingCompleted NumActions d
  | ProcessedStoreUnit unitInfo => processedStoreUnit unitInfo d
  | UnitIsOutOfDate unitInfo outOfDateModTime hint synchronous =>
      unitIsOutOfDate unitInfo outOfDateModTime hint synchronous d
  end.

Definition act (a : Action) (d : AsyncIndexDelegate) : AsyncIndexDelegate :=
  match a with
  | Report call => report call d
  | Work => runNextTask d
  end.

(** A schedule: reports and worker steps in the order they happen. *)
Definition run (schedule : list Action) (d : AsyncIndexDelegate)
  : AsyncIndexDelegate :=
  fold_left (fun d a => act a d) schedule d.

(** The calls a schedule reports, in order. *)
Definition reported (schedule : list Action) : list DelegateCall :=
  flat_map (fun a => match a with Report call => [call] | Work => [] end)
           schedule.

(** Whether a call is an out-of-date report asked to be synchronous. *)
Definition isSynchronous (call : DelegateCall) : bool :=
  match call with
  | UnitIsOutOfDate _ _ _ synchronous => synchronous
  | _ => false
  end.

Definition synchronousOf (calls : list DelegateCall) : list DelegateCall :=
  filter isSynchronous calls.

Definition asynchronousOf (calls : list DelegateCall) : list DelegateCall :=
  filter (fun call => negb (isSynchronous call)) calls.

(** [AsyncIndexDelegate(Other)]: the wrapper as constructed, its queue
    empty. *)
Definition newAsyncIndexDelegate (Other : option (list DelegateCall))
  : AsyncIndexDelegate :=
  mkAsyncIndexDelegate Other [].

(** [IndexSystemImpl::pollForUnitChangesAndWait], seen from the wrapper.
    Modelled from the spec: the poll of the [IndexDatastore] is what reaches
    the wrapper while it runs, the reports of the datastore and the steps of
    the worker; [_wait] follows it. *)
Definition pollForUnitChangesAndWait (poll : list Action)
           (DelegateWrap : AsyncIndexDelegate) : AsyncIndexDelegate :=
  _wait (run poll DelegateWrap).

(** The unit names along the chain of a hint, outermost first. *)
Fixpoint unitNames (hint : OutOfDateTriggerHint) : list string :=
  match hint with
  | DependentFileOutOfDateTriggerHint _ => []
  | DependentUnitOutOfDateTriggerHint UnitName DepHint =>
      UnitName :: unitNames DepHint
  end.

(** The text [description] puts in front of the file of a chain with the
    given unit names. *)
Definition chainPrefix (names : list string) : string :=
  fold_right (fun UnitName rest =>
                ("unit(" ++ UnitName ++ ") -> " ++ rest)%string)
             "" names.

(* ================================================================== *)
(** ** Construction of the facade *)

Module Construction.

(** Modelled from the spec: what a fallible factory of a collaborator
    ([db::Database::create], [indexstore::IndexStore::create],
    [IndexDatastore::create]) does with the error string it is handed: it
    returns an object and leaves the string alone, or returns null after
    writing, or not writing, a message into it. *)
Inductive Attempt : Type :=
| Created
| Failed (written : option string).

(** The error string after a failed attempt. *)
Definition errorAfter (written : option string) (Error : string) : string :=
  match written with
  | Some message => message
  | None => Error
  end.

(** The collaborators, each known by what it was constructed from. *)
Record Database : Type := mkDatabase {
  databasePath : string;
  databaseReadonly : bool;
  databaseInitialSize : option N
}.

Record IndexStoreRef : Type := mkIndexStoreRef {
  indexStorePath : string;
  indexStoreLibrary : string
}.

Inductive CanonicalPathCache : Type := mkCanonicalPathCache.

Record FileVisibilityChecker : Type := mkFileVisibilityChecker {
  checkerDatabase : Database;
  checkerCache : CanonicalPathCache;
  checkerExplicitOutputUnits : bool
}.

Record SymbolIndexRef : Type := mkSymbolIndexRef {
  symbolsDatabase : Database;
  symbolsStore : IndexStoreRef;
  symbolsChecker : FileVisibilityChecker
}.

Record FilePathIndexRef : Type := mkFilePathIndexRef {
  pathsDatabase : Database;
  pathsStore : IndexStoreRef;
  pathsChecker : FileVisibilityChecker;
  pathsCache : CanonicalPathCache
}.

Record IndexDatastore : Type := mkIndexDatastore {
  datastoreStore : IndexStoreRef;
  datastoreSymIndex : SymbolIndexRef;
  datastoreDelegate : AsyncIndexDelegate;
  datastoreCache : CanonicalPathCache;
  datastoreExplicitOutputUnits : bool;
  datastoreReadonly : bool;
  datastoreFileWatching : bool;
  datastoreListenToUnitEvents : bool;
  datastoreWaitUntilDoneInitializing : bool
}.

(** What the world outside answers to the constructor: whether the database
    opens, the library the provider has for a store path, the message of the
    error code of [llvm::sys::fs::create_directories] (none when it
    succeeds), whether the store opens, whether the datastore initialises. *)
Record Environment : Type := mkEnvironment {
  databaseCreate : string -> bool -> option N -> Attempt;
  getLibraryForStorePath : string -> option string;
  create_directories : string -> option string;
  indexStoreCreate : string -> string -> Attempt;
  datastoreCreate : IndexStoreRef -> bool -> bool -> bool -> bool -> bool -> Attempt
}.

(** The fields of [IndexSystemImpl]; a pointer not yet set is [None]. *)
Record IndexSystemImpl : Type := mkIndexSystemImpl {
  StorePath : string;
  DBasePath : string;
  DelegateWrap : option AsyncIndexDelegate;
  SymIndex : option SymbolIndexRef;
  PathIndex : option FilePathIndexRef;
  VisibilityChecker : option FileVisibilityChecker;
  IndexStore : option IndexDatastore
}.

(** [new IndexSystemImpl()]. *)
Definition emptyImpl : IndexSystemImpl :=
  mkIndexSystemImpl "" "" None None None None None.

(** [IndexSystemImpl::init]: whether it failed, the error string, and the
    object as it leaves it. *)
Definition init (env : Environment) (StorePath dbasePath : string)
           (Delegate : option (list DelegateCall))
           (useExplicitOutputUnits readonly enableOutOfDateFileWatching
            listenToUnitEvents waitUntilDoneInitializing : bool)
           (initialDBSize : option N) (Error : string)
           (this : IndexSystemImpl) : bool * string * IndexSystemImpl :=
  let wrap := newAsyncIndexDelegate Delegate in
  let this :=
    mkIndexSystemImpl StorePath dbasePath (Some wrap)
                      (SymIndex this) (PathIndex this)
                      (VisibilityChecker this) (IndexStore this) in
  match databaseCreate env dbasePath readonly initialDBSize with
  | Failed written => (true, errorAfter written Error, this)
  | Created =>
      let dbase := mkDatabase dbasePath readonly initialDBSize in
      match getLibraryForStorePath env StorePath with
      | None => (true, "could not determine indexstore library", this)
      | Some idxStoreLib =>
          let Error :=
            if negb readonly then
              match create_directories env StorePath with
              | Some message =>
                  ("could not create directories for data store path "
                     ++ StorePath ++ ": " ++ message)%string
              | None => Error
              end
            else Error in
          match indexStoreCreate env StorePath idxStoreLib with
          | Failed written => (true, errorAfter written Error, this)
          | Created =>
              let idxStore := mkIndexStoreRef StorePath idxStoreLib in
              let canonPathCache := mkCanonicalPathCache in
              let checker :=
                mkFileVisibilityChecker dbase canonPathCache
                                        useExplicitOutputUnits in
              let symIndex := mkSymbolIndexRef dbase idxStore checker in
              let pathIndex :=
                mkFilePathIndexRef dbase idxStore checker canonPathCache in
              let this :=
                mkIndexSystemImpl StorePath dbasePath (Some wrap)
                                  (Some symIndex) (Some pathIndex)
                                  (Some checker) None in
              match datastoreCreate env idxStore useExplicitOutputUnits readonly
                                    enableOutOfDateFileWatching
                                    listenToUnitEvents
                                    waitUntilDoneInitializing with
              | Failed written => (true, errorAfter written Error, this)
              | Created =>
                  (false, Error,
                   mkIndexSystemImpl StorePath dbasePath (Some wrap)
                     (Some symIndex) (Some pathIndex) (Some checker)
                     (Some (mkIndexDatastore idxStore symIndex wrap
                              canonPathCache useExplicitOutputUnits readonly
                              enableOutOfDateFileWatching listenToUnitEvents
                              waitUntilDoneInitializing)))
              end
          end
      end
  end.

(** [IndexSystem::create]: the facade, or null, and the error string. *)
Definition create (env : Environment) (StorePath dbasePath : string)
           (Delegate : option (list DelegateCall))
           (useExplicitOutputUnits readonly enableOutOfDateFileWatching
            listenToUnitEvents waitUntilDoneInitializing : bool)
           (initialDBSize : option N) (Error : string)
  : option IndexSystemImpl * string :=
  let '(Err, message, Impl) :=
    init env StorePath dbasePath Delegate useExplicitOutputUnits readonly
         enableOutOfDateFileWatching listenToUnitEvents
         waitUntilDoneInitializing initialDBSize Error emptyImpl in
  if Err then (None, message) else (Some Impl, message).

(** An environment in which only the answer of [create_directories]
    differs. *)
Definition withDirectories (answer : string -> option string)
           (env : Environment) : Environment :=
  mkEnvironment (databaseCreate env) (getLibraryForStorePath env) answer
                (indexStoreCreate env) (datastoreCreate env).

End Construction.

(** Environments and a wrapper for the scenarios of construction and of the
    delegate. *)
Module ConstructionScenario.
Import Construction.

(** Everything opens, but the directories of the store path cannot be
    created. *)
Definition welcoming : Environment :=
  mkEnvironment (fun _ _ _ => Created)
                (fun _ => Some "libIndexStore.dylib")
                (fun _ => Some "Permission denied")
                (fun _ _ => Created)
                (fun _ _ _ _ _ _ => Created).

(** The provider has no library. *)
Definition withoutLibrary : Environment :=
  mkEnvironment (fun _ _ _ => Created)
                (fun _ => None)
                (fun _ => None)
                (fun _ _ => Failed (Some "no store"))
                (fun _ _ _ _ _ _ => Failed None).

(** The facade [create] builds in the welcoming environment. *)
Definition facade : option IndexSystemImpl * string :=
  create welcoming "/tmp/store" "/tmp/db" (Some []) false false true true false
         None "".

(** A wrapper whose delegate has received one call and whose queue holds
    one task. *)
Definition busy : AsyncIndexDelegate :=
  mkAsyncIndexDelegate (Some [ProcessingAddedPending 1%N])
                       [ProcessedStoreUnit (mkStoreUnitInfo "a.o" "a.c")].

End ConstructionScenario.

(* ================================================================== *)
(** * Properties *)

Lemma SymbolKind_eqb_spec (a b : SymbolKind) :
  reflect (a = b) (SymbolKind_eqb a b).
Proof. destruct a, b; simpl; constructor; congruence. Qed.

(** ** Loops *)

Section Loops.
Context {St A B : Type}.

Lemma enumerate_always (g : A -> B -> M St B) (xs : list A) :
  forall b s,
    enumerate xs (fun x b => b' <- g x b ;; ret (true, b')) b s =
    (b' <- forEach xs g b ;; ret (true, b')) s.
Proof.
  induction xs as [|x xs IH]; intros b s; simpl; [reflexivity|].
  unfold bind in *. destruct (g x b s) as [[b1 s1]|]; simpl; [|reflexivity].
  apply IH.
Qed.

Lemma forEach_ext (g h : A -> B -> M St B) (xs : list A) :
  (forall x b s, g x b s = h x b s) ->
  forall b s, forEach xs g b s = forEach xs h b s.
Proof.
  intros E. induction xs as [|x xs IH]; intros b s; simpl; [reflexivity|].
  unfold bind. rewrite E. destruct (h x b s) as [[b1 s1]|]; auto.
Qed.

Lemma forEach_app (g : A -> B -> M St B) (xs ys : list A) :
  forall b s,
    forEach (xs ++ ys) g b s = (b' <- forEach xs g b ;; forEach ys g b') s.
Proof.
  induction xs as [|x xs IH]; intros b s; simpl; [reflexivity|].
  unfold bind in *. destruct (g x b s) as [[b1 s1]|]; [|reflexivity].
  apply IH.
Qed.

End Loops.

Lemma forEach_flat_map {St A B C} (f : C -> list A) (g : A -> B -> M St B)
      (cs : list C) :
  forall b s,
    forEach (flat_map f cs) g b s =
    forEach cs (fun c b => forEach (f c) g b) b s.
Proof.
  induction cs as [|c cs IH]; intros b s; simpl; [reflexivity|].
  rewrite forEach_app. unfold bind.
  destruct (forEach (f c) g b s) as [[b1 s1]|]; auto.
Qed.

Lemma forEach_map {St A B C} (f : C -> A) (g : A -> B -> M St B) (cs : list C) :
  forall b s,
    forEach (map f cs) g b s = forEach cs (fun c b => g (f c) b) b s.
Proof.
  induction cs as [|c cs IH]; intros b s; simpl; [reflexivity|].
  unfold bind. destruct (g (f c) b s) as [[b1 s1]|]; auto.
Qed.

(** ** Deduplication by key *)

Section Keyed.
Context {X : Type} (key : X -> string).

Lemma existsb_key_In (u : string) (L : list X) :
  existsb (fun x => String.eqb (key x) u) L = true <-> In u (map key L).
Proof.
  rewrite existsb_exists, in_map_iff. split.
  - intros [x [Hx E]]. apply String.eqb_eq in E. eauto.
  - intros [x [E Hx]]. exists x. split; [assumption|]. now apply String.eqb_eq.
Qed.

Lemma existsb_key_notIn (u : string) (L : list X) :
  existsb (fun x => String.eqb (key x) u) L = false <-> ~ In u (map key L).
Proof.
  rewrite <- existsb_key_In. destruct (existsb _ L); split; congruence.
Qed.

Lemma filter_length_le (f g : string -> bool) (U : list string) :
  (forall u, f u = true -> g u = true) ->
  List.length (filter f U) <= List.length (filter g U).
Proof.
  intros Hfg. induction U as [|u U IH]; simpl; [lia|].
  destruct (f u) eqn:Ef.
  - rewrite (Hfg _ Ef). simpl. lia.
  - destruct (g u); simpl; lia.
Qed.

Lemma filter_length_lt (f g : string -> bool) (U : list string) (a : string) :
  (forall u, f u = true -> g u = true) ->
  In a U -> f a = false -> g a = true ->
  List.length (filter f U) < List.length (filter g U).
Proof.
  intros Hfg Ha Efa Ega. induction U as [|u U IH]; simpl; [contradiction|].
  destruct Ha as [->|Ha].
  - rewrite Efa, Ega. simpl.
    pose proof (filter_length_le f g U Hfg). lia.
  - specialize (IH Ha). destruct (f u) eqn:Ef.
    + rewrite (Hfg _ Ef). simpl. lia.
    + destruct (g u); simpl; lia.
Qed.

Lemma remaining_app_le (U : list string) (L A : list X) :
  remaining key U (L ++ A) <= remaining key U L.
Proof.
  unfold remaining. apply filter_length_le. intros u.
  rewrite existsb_app, negb_orb, andb_true_iff. tauto.
Qed.

Lemma remaining_snoc_lt (U : list string) (L : list X) (x : X) :
  In (key x) U ->
  existsb (fun y => String.eqb (key y) (key x)) L = false ->
  remaining key U (L ++ [x]) < remaining key U L.
Proof.
  intros HU Hx. unfold remaining.
  apply filter_length_lt with (a := key x); trivial.
  - intros u. rewrite existsb_app, negb_orb, andb_true_iff. tauto.
  - rewrite existsb_app. simpl. rewrite String.eqb_refl.
    now rewrite orb_true_r.
  - now rewrite Hx.
Qed.

Lemma remaining_nil_le (U : list string) (L : list X) :
  remaining key U L <= List.length U.
Proof.
  unfold remaining. induction U as [|u U IH]; simpl; [lia|].
  destruct (negb _); simpl; lia.
Qed.

Lemma NoDup_key_snoc (L : list X) (x : X) :
  existsb (fun y => String.eqb (key y) (key x)) L = false ->
  NoDup (map key L) -> NoDup (map key (L ++ [x])).
Proof.
  intros Hx HL. rewrite map_app. simpl.
  apply existsb_key_notIn in Hx.
  apply NoDup_app; trivial.
  - constructor; [intros []|constructor].
  - intros u Hu [<-|[]]. contradiction.
Qed.

End Keyed.

(** ** The transitive closures *)

Section Closure.
Variable SymIndex : SymbolIndex.
Variable RS : Type.

Local Abbreviation World := (World RS).
Local Abbreviation impl := (@getBaseMethodsOrClassesImpl SymIndex RS).
Local Abbreviation occursImpl := (@getAllRelatedOccursImpl SymIndex RS).
Local Abbreviation usrOf := (fun o : SymbolOccurrence => getUSR (getSymbol o)).

Lemma queriesOnly_refl (w : World) : queriesOnly w w.
Proof. split; [reflexivity|]. exists []. now rewrite app_nil_r. Qed.

Lemma queriesOnly_trans (w1 w2 w3 : World) :
  queriesOnly w1 w2 -> queriesOnly w2 w3 -> queriesOnly w1 w3.
Proof.
  intros [E1 [q1 [T1 Q1]]] [E2 [q2 [T2 Q2]]]. split; [congruence|].
  exists (q1 ++ q2). rewrite T2, T1, app_assoc, forallb_app, Q1, Q2. auto.
Qed.

Lemma queriesOnly_logEvent (e : Event) (w : World) :
  isQuery e = true -> queriesOnly w (logEvent e w).
Proof.
  intros He. split; [reflexivity|]. exists [e]. simpl. now rewrite He.
Qed.

Lemma queriesOnly_receiverCalls (w w' : World) :
  queriesOnly w w' -> receiverCalls (trace w') = receiverCalls (trace w).
Proof.
  intros [_ [qs [-> Hq]]].
  induction (trace w) as [|e t IH]; simpl.
  - induction qs as [|q qs IHq]; simpl in *; [reflexivity|].
    apply andb_true_iff in Hq as [Hq1 Hq2].
    destruct q; simpl in *; try discriminate; auto.
  - destruct e; simpl; now rewrite ?IH.
Qed.

Lemma candidatesQuery_isQuery (Sym : Symbol) :
  isQuery (candidatesQuery Sym) = true.
Proof. unfold candidatesQuery. now destruct (SymbolKind_eqb _ _). Qed.

(** One level of [getBaseMethodsOrClassesImpl]: the query, then [addEntry] on
    each candidate in turn. *)
Lemma getBaseMethodsOrClassesImpl_unfold (fuel : nat) (Sym : Symbol)
      (L : list Symbol) (w : World) :
  impl (S fuel) Sym L w =
  forEach (candidates SymIndex Sym) (addEntry SymIndex fuel) L
          (logEvent (candidatesQuery Sym) w).
Proof.
  unfold candidates, candidatesQuery. simpl.
  destruct (SymbolKind_eqb (getSymbolKind Sym) InstanceMethod).
  - unfold foreachSymbolOccurrenceByUSR, bind at 1 2, emit.
    rewrite enumerate_always, forEach_flat_map. unfold bind, ret.
    match goal with |- match match ?a with _ => _ end with _ => _ end = ?b =>
      replace a with b; [destruct b as [[? ?]|]; reflexivity|] end.
    apply forEach_ext. intros. apply forEach_ext. reflexivity.
  - unfold foreachRelatedSymbolOccurrenceByUSR, bind at 1 2, emit.
    rewrite enumerate_always, forEach_map. unfold bind, ret.
    match goal with |- match match ?a with _ => _ end with _ => _ end = ?b =>
      replace a with b; [destruct b as [[? ?]|]; reflexivity|] end.
    apply forEach_ext. reflexivity.
Qed.

(** One level of [getAllRelatedOccursImpl]. *)
Lemma getAllRelatedOccursImpl_unfold (fuel : nat) (Sym : Symbol)
      (RoleSet : SymbolRoleSet) (L : list SymbolOccurrence) (w : World) :
  occursImpl (S fuel) Sym RoleSet L w =
  forEach (relatedOccurrencesByUSR SymIndex (getUSR Sym) RoleSet)
          (addOccurEntry SymIndex fuel RoleSet) L
          (logEvent (QueryRelatedOccurrences (getUSR Sym) RoleSet) w).
Proof.
  simpl. unfold foreachRelatedSymbolOccurrenceByUSR, bind at 1 2, emit.
  rewrite enumerate_always. unfold bind, ret.
  match goal with |- match match ?a with _ => _ end with _ => _ end = ?b =>
    replace a with b; [destruct b as [[? ?]|]; reflexivity|] end.
  apply forEach_ext. reflexivity.
Qed.

Lemma candidates_within (U : list string) (Sym c : Symbol) :
  USRsWithin SymIndex U -> In c (candidates SymIndex Sym) -> In (getUSR c) U.
Proof.
  intros HU. unfold candidates.
  destruct (SymbolKind_eqb _ _).
  - rewrite in_flat_map. intros [o [Ho Hc]].
    unfold relatedSymbols in Hc. apply in_map_iff in Hc as [r [<- Hr]].
    apply filter_In in Hr as [Hr _].
    destruct (HU _ _ _ (or_introl Ho)) as [_ H]. auto.
  - rewrite in_map_iff. intros [o [<- Ho]].
    now destruct (HU _ _ _ (or_intror Ho)).
Qed.

(** A closed list in which a USR identifies a symbol holds, by USR, every
    symbol reached from one of its elements. *)
Lemma closedUnderCandidates_reach (L : list Symbol) :
  closedUnderCandidates SymIndex L ->
  kindByUSR SymIndex L ->
  forall x y, In x L -> Reach SymIndex x y -> In (getUSR y) (map getUSR L).
Proof.
  intros Hclosed Hkind x y Hx Hr.
  induction Hr as [x c Hc|x c y Hc Hr IH].
  - exact (Hclosed x c Hx Hc).
  - apply IH.
    pose proof (Hclosed x c Hx Hc) as Hin.
    apply in_map_iff in Hin as [x' [E Hx']].
    assert (K : getSymbolKind x' = getSymbolKind c).
    { apply (Hkind x' x c Hx' Hx); [now apply Reach_step|exact E]. }
    destruct x' as [u k], c as [u' k']. simpl in *. now subst.
Qed.

Lemma grows_ret {X} (key : X -> string) succ (P : X -> Prop) must L
      (w : World) :
  (forall c, In c must -> In (key c) (map key L)) ->
  grows key succ P must L w (Some (L, w)).
Proof.
  intros Hm. exists [], w. rewrite app_nil_r.
  repeat split; auto; try apply queriesOnly_refl; intros x; intros; contradiction.
Qed.

Lemma in_keys_app {X} (key : X -> string) (u : string) (L A : list X) :
  In u (map key L) -> In u (map key (L ++ A)).
Proof. rewrite map_app, in_app_iff. auto. Qed.

(** Sequencing two growing runs. *)
Lemma grows_bind {X} (key : X -> string) succ (P : X -> Prop)
      must1 must2 must L (w : World)
      (m : M World (list X)) (k : list X -> M World (list X)) :
  grows key succ P must1 L w (m w) ->
  (forall L1 w1, (exists added, L1 = L ++ added) ->
                 grows key succ P must2 L1 w1 (k L1 w1)) ->
  (forall c, In c must -> In c must1 \/ In c must2) ->
  grows key succ P must L w ((L1 <- m ;; k L1) w).
Proof.
  intros (a1 & w1 & E1 & Hq1 & Hn1 & Hp1 & Hs1 & Hm1) Hk Hmust.
  unfold bind. rewrite E1.
  destruct (Hk (L ++ a1) w1) as (a2 & w2 & E2 & Hq2 & Hn2 & Hp2 & Hs2 & Hm2);
    eauto.
  exists (a1 ++ a2), w2. rewrite app_assoc.
  split; [exact E2|]. split; [exact (queriesOnly_trans Hq1 Hq2)|].
  split; [auto|]. split; [|split].
  - intros x Hx. apply in_app_or in Hx as []; auto.
  - intros x c Hx Hc. apply in_app_or in Hx as [Hx|Hx].
    + apply in_keys_app. eauto.
    + eauto.
  - intros c Hc. destruct (Hmust c Hc) as [H1|H2].
    + apply in_keys_app. auto.
    + auto.
Qed.

Section Finite.
Variable U : list string.
Hypothesis HU : USRsWithin SymIndex U.

Local Abbreviation cands := (candidates SymIndex).

Lemma addEntries_grow (fuel : nat) (P : Symbol -> Prop) :
  (forall Sym L w,
      remaining getUSR U L < fuel ->
      grows getUSR cands (Reach SymIndex Sym) (cands Sym) L w
            (impl fuel Sym L w)) ->
  forall cs L (w : World),
    (forall c, In c cs -> In (getUSR c) U) ->
    (forall c, In c cs -> P c) ->
    (forall c x, In c cs -> Reach SymIndex c x -> P x) ->
    remaining getUSR U L <= fuel ->
    grows getUSR cands P cs L w (forEach cs (addEntry SymIndex fuel) L w).
Proof.
  intros IHf. induction cs as [|c cs IH]; intros L w Hin HP HR Hfuel.
  - apply grows_ret. intros c [].
  - simpl. apply grows_bind with (must1 := [c]) (must2 := cs).
    + unfold addEntry.
      destruct (containsSymWithUSR c L) eqn:Ec; simpl.
      { apply grows_ret. intros c' [<-|[]].
        now apply (existsb_key_In getUSR). }
      assert (Hlt : remaining getUSR U (L ++ [c]) < fuel).
      { pose proof (@remaining_snoc_lt _ getUSR U L c (Hin c (or_introl eq_refl)) Ec).
        lia. }
      destruct (IHf c (L ++ [c]) w Hlt) as (a & w' & E & Hq & Hn & Hp & Hs & Hm).
      exists (c :: a), w'. rewrite E, <- app_assoc in *. simpl in *.
      split; [reflexivity|]. split; [exact Hq|]. split; [|split; [|split]].
      * intros HL. apply Hn. now apply NoDup_key_snoc.
      * intros x [<-|Hx]; [apply HP; now left|].
        apply (HR c); [now left|auto].
      * intros x c' [<-|Hx] Hc'; eauto.
      * intros c' [<-|[]]. rewrite map_app, in_app_iff. right. now left.
    + intros L1 w1 [a ->]. apply IH.
      * intros c' Hc'. apply Hin. now right.
      * intros c' Hc'. apply HP. now right.
      * intros c' x Hc'. apply HR. now right.
      * pose proof (@remaining_app_le _ getUSR U L a). lia.
    + intros c' [<-|Hc']; [left; now left|now right].
Qed.

(** With more fuel than USRs left to add, [getBaseMethodsOrClassesImpl]
    returns: it extends the list by symbols reached from [Sym], keeps it free
    of repeated USRs, leaves the candidates of [Sym] and of every new symbol
    in the list, and never invokes the receiver. *)
Lemma getBaseMethodsOrClassesImpl_grows :
  forall fuel Sym L w,
    remaining getUSR U L < fuel ->
    grows getUSR cands (Reach SymIndex Sym) (cands Sym) L w (impl fuel Sym L w).
Proof.
  induction fuel as [|fuel IHf]; intros Sym L w Hfuel; [lia|].
  rewrite getBaseMethodsOrClassesImpl_unfold.
  assert (G : grows getUSR cands (Reach SymIndex Sym) (cands Sym) L
                    (logEvent (candidatesQuery Sym) w)
                    (forEach (cands Sym) (addEntry SymIndex fuel) L
                             (logEvent (candidatesQuery Sym) w))).
  { apply addEntries_grow; trivial.
    - intros c Hc. eapply candidates_within; eauto.
    - intros c Hc. now apply Reach_step.
    - intros c x Hc Hx. eapply Reach_trans; eauto.
    - lia. }
  destruct G as (a & w' & E & Hq & Hn & Hp & Hs & Hm).
  exists a, w'. split; [exact E|]. split; [|auto].
  eapply queriesOnly_trans; [|exact Hq].
  apply queriesOnly_logEvent, candidatesQuery_isQuery.
Qed.

Lemma addOccurEntries_grow (fuel : nat) (RoleSet : SymbolRoleSet)
      (P : SymbolOccurrence -> Prop) :
  (forall Sym L w,
      remaining usrOf U L < fuel ->
      grows usrOf (relatedOf SymIndex RoleSet)
            (ReachOccur SymIndex RoleSet Sym)
            (relatedOccurrencesByUSR SymIndex (getUSR Sym) RoleSet) L w
            (occursImpl fuel Sym RoleSet L w)) ->
  forall cs L (w : World),
    (forall o, In o cs -> In (usrOf o) U) ->
    (forall o, In o cs -> P o) ->
    (forall o x, In o cs -> ReachOccur SymIndex RoleSet (getSymbol o) x -> P x) ->
    remaining usrOf U L <= fuel ->
    grows usrOf (relatedOf SymIndex RoleSet) P cs L w
          (forEach cs (addOccurEntry SymIndex fuel RoleSet) L w).
Proof.
  intros IHf. induction cs as [|c cs IH]; intros L w Hin HP HR Hfuel.
  - apply grows_ret. intros c [].
  - simpl. apply grows_bind with (must1 := [c]) (must2 := cs).
    + unfold addOccurEntry.
      destruct (containsOccurWithUSR (getSymbol c) L) eqn:Ec; simpl.
      { apply grows_ret. intros c' [<-|[]].
        now apply (existsb_key_In usrOf). }
      assert (Hlt : remaining usrOf U (L ++ [c]) < fuel).
      { pose proof (@remaining_snoc_lt _ usrOf U L c (Hin c (or_introl eq_refl)) Ec).
        lia. }
      destruct (IHf (getSymbol c) (L ++ [c]) w Hlt)
        as (a & w' & E & Hq & Hn & Hp & Hs & Hm).
      exists (c :: a), w'. rewrite E, <- app_assoc in *. simpl in *.
      split; [reflexivity|]. split; [exact Hq|]. split; [|split; [|split]].
      * intros HL. apply Hn. now apply (NoDup_key_snoc usrOf).
      * intros x [<-|Hx]; [apply HP; now left|].
        apply (HR c); [now left|auto].
      * intros x c' [<-|Hx] Hc'; eauto.
      * intros c' [<-|[]]. rewrite map_app, in_app_iff. right. now left.
    + intros L1 w1 [a ->]. apply IH.
      * intros c' Hc'. apply Hin. now right.
      * intros c' Hc'. apply HP. now right.
      * intros c' x Hc'. apply HR. now right.
      * pose proof (@remaining_app_le _ usrOf U L a). lia.
    + intros c' [<-|Hc']; [left; now left|now right].
Qed.

(** The same for the companion that accumulates occurrences. *)
Lemma getAllRelatedOccursImpl_grows (RoleSet : SymbolRoleSet) :
  forall fuel Sym L w,
    remaining usrOf U L < fuel ->
    grows usrOf (relatedOf SymIndex RoleSet)
          (ReachOccur SymIndex RoleSet Sym)
          (relatedOccurrencesByUSR SymIndex (getUSR Sym) RoleSet) L w
          (occursImpl fuel Sym RoleSet L w).
Proof.
  induction fuel as [|fuel IHf]; intros Sym L w Hfuel; [lia|].
  rewrite getAllRelatedOccursImpl_unfold.
  set (q := QueryRelatedOccurrences (getUSR Sym) RoleSet).
  assert (G : grows usrOf (relatedOf SymIndex RoleSet)
                    (ReachOccur SymIndex RoleSet Sym)
                    (relatedOccurrencesByUSR SymIndex (getUSR Sym) RoleSet)
                    L (logEvent q w)
                    (forEach (relatedOccurrencesByUSR SymIndex (getUSR Sym) RoleSet)
                             (addOccurEntry SymIndex fuel RoleSet) L
                             (logEvent q w))).
  { apply addOccurEntries_grow; trivial.
    - intros o Ho. now destruct (HU _ _ _ (or_intror Ho)).
    - intros o Ho. now apply ReachOccur_step.
    - intros o x Ho Hx. eapply ReachOccur_trans; eauto.
    - lia. }
  destruct G as (a & w' & E & Hq & Hn & Hp & Hs & Hm).
  exists a, w'. split; [exact E|]. split; [|auto].
  eapply queriesOnly_trans; [|exact Hq].
  now apply queriesOnly_logEvent.
Qed.

End Finite.

(** More fuel does not change the result of a closure. *)
Lemma forEach_mono {A B} (g h : A -> B -> M World B) (xs : list A) :
  (forall x b s r, g x b s = Some r -> h x b s = Some r) ->
  forall b s r, forEach xs g b s = Some r -> forEach xs h b s = Some r.
Proof.
  intros E. induction xs as [|x xs IH]; intros b s r; simpl; [auto|].
  unfold bind. destruct (g x b s) as [[b1 s1]|] eqn:G; [|discriminate].
  rewrite (E _ _ _ _ G). apply IH.
Qed.

Lemma getBaseMethodsOrClassesImpl_fuel_S :
  forall fuel Sym L (w : World) r,
    impl fuel Sym L w = Some r -> impl (S fuel) Sym L w = Some r.
Proof.
  induction fuel as [|fuel IHf]; intros Sym L w r; [discriminate|].
  rewrite !getBaseMethodsOrClassesImpl_unfold.
  apply forEach_mono. intros x b s r'. unfold addEntry.
  destruct (negb _); auto.
Qed.

Lemma getBaseMethodsOrClassesImpl_fuel_le (fuel fuel' : nat) :
  fuel <= fuel' ->
  forall Sym L (w : World) r,
    impl fuel Sym L w = Some r -> impl fuel' Sym L w = Some r.
Proof.
  induction 1; auto using getBaseMethodsOrClassesImpl_fuel_S.
Qed.

Lemma getAllRelatedOccursImpl_fuel_S (RoleSet : SymbolRoleSet) :
  forall fuel Sym L (w : World) r,
    occursImpl fuel Sym RoleSet L w = Some r ->
    occursImpl (S fuel) Sym RoleSet L w = Some r.
Proof.
  induction fuel as [|fuel IHf]; intros Sym L w r; [discriminate|].
  rewrite !getAllRelatedOccursImpl_unfold.
  apply forEach_mono. intros x b s r'. unfold addOccurEntry.
  destruct (negb _); auto.
Qed.

Lemma getAllRelatedOccursImpl_fuel_le (RoleSet : SymbolRoleSet)
      (fuel fuel' : nat) :
  fuel <= fuel' ->
  forall Sym L (w : World) r,
    occursImpl fuel Sym RoleSet L w = Some r ->
    occursImpl fuel' Sym RoleSet L w = Some r.
Proof.
  induction 1; auto using getAllRelatedOccursImpl_fuel_S.
Qed.

End Closure.

(** ** Delivery to the caller's receiver *)

Section Delivery.
Variable SymIndex : SymbolIndex.
Variable RS : Type.
Variable Receiver : SymbolOccurrence -> RS -> bool * RS.

Local Abbreviation World := (World RS).
Local Abbreviation deliver := (deliver Receiver).
Local Abbreviation callReceiver := (callReceiver Receiver).
Local Abbreviation queryAndDeliver := (queryAndDeliver Receiver).
Local Abbreviation deliverEach := (deliverEach Receiver).
Local Abbreviation callsOf := (callsOf SymIndex).

Lemma filter_all {A} (xs : list A) : filter (fun _ => true) xs = xs.
Proof. induction xs; simpl; congruence. Qed.

(** A receiver that hands the kept occurrences to the caller's receiver and
    passes over the others enumerates like a delivery of the kept ones. *)
Lemma enumerate_keep (keep : SymbolOccurrence -> bool)
      (recv : SymbolOccurrence -> M World bool) :
  (forall o w, recv o w = if keep o then callReceiver o w else Some (true, w)) ->
  forall xs w,
    enumerate xs (plain recv) tt w = unitResult (deliver (filter keep xs) w).
Proof.
  intros Hrecv. induction xs as [|o xs IH]; intros w; simpl; [reflexivity|].
  unfold plain at 1, bind. rewrite Hrecv.
  destruct (keep o); simpl.
  - unfold callReceiver.
    destruct (Receiver o (recvState w)) as [[|] s']; simpl; [apply IH|reflexivity].
  - apply IH.
Qed.

Lemma foreachSymbolOccurrenceByUSR_keep (keep : SymbolOccurrence -> bool)
      (recv : SymbolOccurrence -> M World bool) :
  (forall o w, recv o w = if keep o then callReceiver o w else Some (true, w)) ->
  forall USR w,
    foreachSymbolOccurrenceByUSR SymIndex USR SymbolRole.Call (plain recv) tt w =
    unitResult (queryAndDeliver USR (filter keep (callsOf USR)) w).
Proof.
  intros Hrecv USR w.
  unfold foreachSymbolOccurrenceByUSR, bind, emit.
  now rewrite (enumerate_keep keep recv Hrecv).
Qed.

(** The direct phase: the caller's receiver itself is handed to the index. *)
Lemma foreachSymbolOccurrenceByUSR_direct (USR : string) (w : World) :
  foreachSymbolOccurrenceByUSR SymIndex USR SymbolRole.Call
                               (plain callReceiver) tt w =
  unitResult (queryAndDeliver USR (callsOf USR) w).
Proof.
  rewrite (foreachSymbolOccurrenceByUSR_keep (fun _ => true)); [|reflexivity].
  now rewrite filter_all.
Qed.

(** The loop over the symbols whose calls are enumerated. *)
Lemma enumerate_deliverEach {X} (key : X -> string)
      (keep : SymbolOccurrence -> bool)
      (recv : SymbolOccurrence -> M World bool) :
  (forall o w, recv o w = if keep o then callReceiver o w else Some (true, w)) ->
  forall (xs : list X) w,
    enumerate xs
      (fun x _ => foreachSymbolOccurrenceByUSR SymIndex (key x) SymbolRole.Call
                                               (plain recv) tt)
      tt w =
    unitResult (deliverEach (fun USR => filter keep (callsOf USR)) (map key xs) w).
Proof.
  intros Hrecv. induction xs as [|x xs IH]; intros w; simpl; [reflexivity|].
  unfold bind. rewrite (foreachSymbolOccurrenceByUSR_keep keep recv Hrecv).
  unfold unitResult at 1.
  destruct (queryAndDeliver _ _ w) as [[|] w']; simpl; [apply IH|reflexivity].
Qed.

(** What a delivery leaves in the trace: the receiver calls on a prefix of
    the list, which is the whole list when the receiver never stopped. *)
Lemma deliver_trace (xs : list SymbolOccurrence) :
  forall w b w',
    deliver xs w = (b, w') ->
    exists pre post,
      xs = pre ++ post /\
      trace w' = trace w ++ map ReceiverCall pre /\
      (b = true -> post = []) /\
      (b = false -> pre <> []).
Proof.
  induction xs as [|o xs IH]; intros w b w' H; simpl in H.
  - injection H as <- <-. exists [], []. simpl. rewrite app_nil_r.
    repeat split; auto. discriminate.
  - destruct (Receiver o (recvState w)) as [[|] s'].
    + apply IH in H as (pre & post & -> & T & Hb & Hb'). simpl in T.
      exists (o :: pre), post. simpl. rewrite T, <- app_assoc.
      repeat split; auto. discriminate.
    + injection H as <- <-. exists [o], xs. simpl.
      repeat split; auto; discriminate.
Qed.

Lemma receiverCalls_app (t1 t2 : list Event) :
  receiverCalls (t1 ++ t2) = receiverCalls t1 ++ receiverCalls t2.
Proof.
  induction t1 as [|e t1 IH]; simpl; [reflexivity|].
  destruct e; simpl; now rewrite IH.
Qed.

Lemma receiverCalls_map (xs : list SymbolOccurrence) :
  receiverCalls (map ReceiverCall xs) = xs.
Proof. induction xs; simpl; congruence. Qed.

(** The receiver calls of a run of [deliverEach]: a prefix of the selected
    calls of all the USRs, in order, and all of them when the run answers
    [true]. *)
Lemma deliverEach_receiverCalls (select : string -> list SymbolOccurrence)
      (USRs : list string) :
  forall w b w',
    deliverEach select USRs w = (b, w') ->
    exists pre post,
      flat_map select USRs = pre ++ post /\
      receiverCalls (trace w') = receiverCalls (trace w) ++ pre /\
      (b = true -> post = []).
Proof.
  induction USRs as [|u USRs IH]; intros w b w' H; simpl in H.
  - injection H as <- <-. exists [], []. simpl. rewrite app_nil_r. auto.
  - destruct (queryAndDeliver u (select u) w) as [c w1] eqn:D.
    unfold queryAndDeliver in D.
    apply deliver_trace in D as (p1 & q1 & E1 & T1 & Hc & _).
    assert (R1 : receiverCalls (trace w1) = receiverCalls (trace w) ++ p1).
    { rewrite T1. simpl. rewrite !receiverCalls_app, receiverCalls_map. simpl.
      now rewrite app_nil_r. }
    destruct c.
    + apply IH in H as (p2 & q2 & E2 & T2 & Hb).
      rewrite (Hc eq_refl), app_nil_r in E1.
      exists (p1 ++ p2), q2. simpl. rewrite E1, E2, T2, R1, !app_assoc. auto.
    + injection H as <- <-.
      exists p1, (q1 ++ flat_map select USRs). simpl.
      rewrite E1, app_assoc. repeat split; auto. discriminate.
Qed.

End Delivery.

(** ** The call resolver *)

Section CallResolver.
Variable isCallable : Symbol -> bool.
Variable SymIndex : SymbolIndex.
Variable RS : Type.
Variable Receiver : SymbolOccurrence -> RS -> bool * RS.

Local Abbreviation World := (World RS).
Local Abbreviation usrOf := (fun o : SymbolOccurrence => getUSR (getSymbol o)).
Local Abbreviation callsOf := (callsOf SymIndex).
Local Abbreviation direct :=
  (fun Callee : SymbolOccurrence =>
     queryAndDeliver Receiver (getUSR (getSymbol Callee))
                     (callsOf (getUSR (getSymbol Callee)))).

Lemma fold_left_flag {A} (p : A -> bool) (xs : list A) :
  forall acc,
    fold_left (fun flag x => if p x then true else flag) xs acc =
    acc || existsb p xs.
Proof.
  induction xs as [|x xs IH]; intros acc; simpl.
  - now rewrite orb_false_r.
  - rewrite IH. destruct (p x), acc; reflexivity.
Qed.

Lemma receivedByClass_existsb (ClassSyms : list Symbol) (Occur : SymbolOccurrence) :
  receivedByClass ClassSyms Occur =
  existsb (fun RelSym => containsSymWithUSR RelSym ClassSyms)
          (relatedSymbols SymbolRole.RelationReceivedBy Occur).
Proof. unfold receivedByClass. now rewrite fold_left_flag. Qed.

(** The receiver of the class-hierarchy path is the filter of the
    specification in front of the caller's receiver. *)
Lemma dispatchReceiver_admitted (ClassSyms : list Symbol)
      (Occur : SymbolOccurrence) (w : World) :
  dispatchReceiver Receiver ClassSyms Occur w =
  if admitted ClassSyms Occur then callReceiver Receiver Occur w
  else Some (true, w).
Proof.
  unfold dispatchReceiver, admitted. rewrite receivedByClass_existsb.
  destruct (containsAny (getRoles Occur) SymbolRole.Dynamic); simpl;
    [|reflexivity].
  destruct (contains (getRoles Occur) SymbolRole.RelationReceivedBy); simpl;
    [|reflexivity].
  now destruct (existsb _ _).
Qed.

Lemma replaceExtension_run (clsSym : Symbol) (w : World) :
  replaceExtension SymIndex clsSym w =
  Some (extendedType SymIndex clsSym,
        mkWorld (recvState w) (trace w ++ extensionQueries [clsSym])).
Proof.
  unfold replaceExtension, extendedType, extensionQueries. simpl.
  destruct (SymbolKind_eqb (getSymbolKind clsSym) Extension); simpl.
  - unfold foreachRelatedSymbolOccurrenceByUSR, bind, emit, logEvent. simpl.
    now destruct (relatedOccurrencesByUSR SymIndex _ _).
  - unfold ret. rewrite app_nil_r. now destruct w.
Qed.

Lemma replaceExtensions_run (clsSyms : list Symbol) :
  forall w : World,
    replaceExtensions SymIndex clsSyms w =
    Some (map (extendedType SymIndex) clsSyms,
          mkWorld (recvState w) (trace w ++ extensionQueries clsSyms)).
Proof.
  induction clsSyms as [|c cs IH]; intros w; simpl.
  - unfold ret, extensionQueries. simpl. rewrite app_nil_r. now destruct w.
  - unfold bind. rewrite replaceExtension_run, IH. unfold ret. simpl.
    rewrite <- app_assoc. do 3 f_equal.
    unfold extensionQueries. simpl.
    now destruct (SymbolKind_eqb (getSymbolKind c) Extension).
Qed.

Lemma extensionQueries_isQuery (clsSyms : list Symbol) :
  forallb isQuery (extensionQueries clsSyms) = true.
Proof.
  unfold extensionQueries. apply forallb_forall. intros e He.
  apply in_map_iff in He as [s [<- _]]. reflexivity.
Qed.

Lemma replaceExtensions_queriesOnly (clsSyms : list Symbol) (w : World) :
  queriesOnly w (mkWorld (recvState w) (trace w ++ extensionQueries clsSyms)).
Proof.
  split; [reflexivity|]. exists (extensionQueries clsSyms).
  split; [reflexivity|apply extensionQueries_isQuery].
Qed.

(** The function up to the rewriting of the receiver classes, for a callable
    callee with role Dynamic. *)
Lemma foreachSymbolCallOccurrence_dynamic (fuel : nat)
      (Callee : SymbolOccurrence) (w : World) :
  isCallable (getSymbol Callee) = true ->
  containsAny (getRoles Callee) SymbolRole.Dynamic = true ->
  foreachSymbolCallOccurrence isCallable SymIndex Receiver fuel Callee w =
  let (Continue, w1) := direct Callee w in
  if Continue then
    dynamicCallers SymIndex Receiver fuel (getSymbol Callee)
      (receiverClasses SymIndex Callee)
      (mkWorld (recvState w1)
               (trace w1 ++
                extensionQueries (relatedSymbols (relationToUse Callee) Callee)))
  else Some (false, w1).
Proof.
  intros Hc Hd. unfold foreachSymbolCallOccurrence. rewrite Hc, Hd. simpl.
  unfold bind at 1. rewrite foreachSymbolOccurrenceByUSR_direct.
  unfold unitResult.
  destruct (queryAndDeliver _ _ _ w) as [[|] w1]; simpl; [|reflexivity].
  unfold bind. now rewrite replaceExtensions_run.
Qed.

Section FiniteIndex.
Variable U : list string.
Hypothesis HU : USRsWithin SymIndex U.
Variable fuel : nat.
Hypothesis Hfuel : List.length U < fuel.

Lemma Reach_within (Sym x : Symbol) : Reach SymIndex Sym x -> In (getUSR x) U.
Proof. induction 1; eauto using candidates_within. Qed.

Lemma ReachOccur_within (RoleSet : SymbolRoleSet) (Sym : Symbol)
      (o : SymbolOccurrence) :
  ReachOccur SymIndex RoleSet Sym o -> In (usrOf o) U.
Proof.
  induction 1 as [Sym o Ho|]; [|assumption].
  now destruct (HU _ _ _ (or_intror Ho)).
Qed.

Lemma fuel_enough {X} (key : X -> string) (L : list X) :
  remaining key U L < fuel.
Proof. pose proof (remaining_nil_le key U L). lia. Qed.

(** [getBaseMethodsOrClasses] on a finite index. *)
Lemma getBaseMethodsOrClasses_runs (Sym : Symbol) (w : World) :
  exists L w',
    getBaseMethodsOrClasses SymIndex fuel Sym w = Some (L, w') /\
    queriesOnly w w' /\
    NoDup (map getUSR L) /\
    (forall x, In x L -> Reach SymIndex Sym x) /\
    closedUnderCandidates SymIndex L /\
    (forall c, In c (candidates SymIndex Sym) -> In (getUSR c) (map getUSR L)).
Proof.
  destruct (getBaseMethodsOrClassesImpl_grows HU Sym [] w (fuel_enough getUSR []))
    as (L & w' & E & Hq & Hn & Hp & Hs & Hm).
  simpl in *. exists L, w'.
  split; [exact E|]. split; [exact Hq|]. split; [apply Hn; constructor|].
  split; [exact Hp|]. split; [|exact Hm].
  intros x c Hx Hc. eauto.
Qed.

(** The protocol path's closure on a finite index. *)
Lemma getAllRelatedOccursImpl_runs (RoleSet : SymbolRoleSet) (Sym : Symbol)
      (w : World) :
  exists L w',
    getAllRelatedOccursImpl SymIndex fuel Sym RoleSet [] w = Some (L, w') /\
    queriesOnly w w' /\
    NoDup (map usrOf L) /\
    (forall o, In o L -> ReachOccur SymIndex RoleSet Sym o) /\
    (forall o, ReachOccur SymIndex RoleSet Sym o -> In (usrOf o) (map usrOf L)).
Proof.
  destruct (getAllRelatedOccursImpl_grows HU RoleSet Sym [] w (fuel_enough usrOf []))
    as (L & w' & E & Hq & Hn & Hp & Hs & Hm).
  simpl in *. exists L, w'.
  split; [exact E|]. split; [exact Hq|]. split; [apply Hn; constructor|].
  split; [exact Hp|].
  - assert (G : forall s,
               (forall c, In c (relatedOccurrencesByUSR SymIndex (getUSR s) RoleSet) ->
                          In (usrOf c) (map usrOf L)) ->
               forall o, ReachOccur SymIndex RoleSet s o ->
                         In (usrOf o) (map usrOf L)).
    { intros s Hs0 o Ho. induction Ho as [s o Ho|s o x Ho Hx IH]; [auto|].
      apply IH. intros c Hc.
      specialize (Hs0 o Ho). apply in_map_iff in Hs0 as [o' [Eo Ho']].
      apply (Hs o' c Ho'). unfold relatedOf. now rewrite Eo. }
    intros o Ho. exact (G Sym Hm o Ho).
Qed.

(** The loop that fills [ClassSyms], from any closed list. *)
Lemma collectClassSyms_from (clsSyms : list Symbol) :
  forall (L : list Symbol) (w : World),
    closedUnderCandidates SymIndex L ->
    exists L' w',
      forEach clsSyms
              (fun clsSym ClassSyms =>
                 ClassSyms' <- getBaseMethodsOrClassesImpl SymIndex fuel clsSym
                                                           ClassSyms ;;
                 ret (ClassSyms' ++ [clsSym]))
              L w = Some (L', w') /\
      queriesOnly w w' /\
      (forall x, In x L -> In x L') /\
      (forall c, In c clsSyms -> In c L') /\
      (forall x, In x L' ->
                 In x L \/ In x clsSyms \/
                 exists c, In c clsSyms /\ Reach SymIndex c x) /\
      closedUnderCandidates SymIndex L'.
Proof.
  induction clsSyms as [|c cs IH]; intros L w HL.
  - exists L, w. simpl. repeat split; auto; try apply queriesOnly_refl.
    intros x [].
  - simpl. unfold bind at 1 2.
    destruct (getBaseMethodsOrClassesImpl_grows HU c L w (fuel_enough getUSR L))
      as (a & w1 & E & Hq & Hn & Hp & Hs & Hm).
    rewrite E. unfold ret at 1.
    assert (HL1 : closedUnderCandidates SymIndex ((L ++ a) ++ [c])).
    { intros x y Hx Hy. apply in_keys_app.
      apply in_app_or in Hx as [Hx|[<-|[]]]; [|now apply Hm].
      apply in_app_or in Hx as [Hx|Hx]; [|eauto].
      apply in_keys_app. eauto. }
    destruct (IH ((L ++ a) ++ [c]) w1 HL1) as (L' & w' & E' & Hq' & Hi & Hc & Hr & Hcl).
    exists L', w'. split; [exact E'|]. split; [exact (queriesOnly_trans Hq Hq')|].
    split; [|split; [|split]]; trivial.
    + intros x Hx. apply Hi. rewrite !in_app_iff. auto.
    + intros c' [<-|Hc']; [|auto]. apply Hi. rewrite !in_app_iff. simpl. auto.
    + intros x Hx. destruct (Hr x Hx) as [H|[H|[c' [H1 H2]]]].
      * rewrite !in_app_iff in H. simpl in H.
        destruct H as [[H|H]|[<-|[]]]; [auto| |right; left; now left].
        right; right. exists c. split; [now left|auto].
      * right; left. now right.
      * right; right. exists c'. split; [now right|assumption].
Qed.

Lemma collectClassSyms_runs (clsSyms : list Symbol) (w : World) :
  exists ClassSyms w',
    collectClassSyms SymIndex fuel clsSyms w = Some (ClassSyms, w') /\
    queriesOnly w w' /\
    (forall c, In c clsSyms -> In c ClassSyms) /\
    (forall x, In x ClassSyms ->
               In x clsSyms \/ exists c, In c clsSyms /\ Reach SymIndex c x) /\
    closedUnderCandidates SymIndex ClassSyms.
Proof.
  destruct (collectClassSyms_from clsSyms (L := []) w) as
      (L' & w' & E & Hq & _ & Hc & Hr & Hcl).
  { intros x c []. }
  exists L', w'. repeat split; auto; try apply Hq.
  intros x Hx. destruct (Hr x Hx) as [[]|H]; exact H.
Qed.

End FiniteIndex.

(** C7. A callee whose symbol is not callable: the function answers [false]
    and leaves the world as it found it, so it neither invokes the caller's
    receiver nor queries the index. *)
Theorem foreachSymbolCallOccurrence_not_callable (fuel : nat)
        (Callee : SymbolOccurrence) (w : World) :
  isCallable (getSymbol Callee) = false ->
  foreachSymbolCallOccurrence isCallable SymIndex Receiver fuel Callee w =
  Some (false, w).
Proof.
  intros Hc. unfold foreachSymbolCallOccurrence. now rewrite Hc.
Qed.

(** C6. A callable callee without role Dynamic: the function sends the one
    Call query for the callee's USR and hands the occurrences it yields to
    the caller's receiver, in order, until the receiver answers [false]; its
    answer is [false] when the receiver stopped the enumeration and [true]
    otherwise, and the trace holds that query and those receiver calls and
    nothing else. *)
Theorem foreachSymbolCallOccurrence_static (fuel : nat)
        (Callee : SymbolOccurrence) (w : World) :
  isCallable (getSymbol Callee) = true ->
  containsAny (getRoles Callee) SymbolRole.Dynamic = false ->
  foreachSymbolCallOccurrence isCallable SymIndex Receiver fuel Callee w =
  Some (direct Callee w) /\
  exists pre post,
    callsOf (getUSR (getSymbol Callee)) = pre ++ post /\
    trace (snd (direct Callee w)) =
    trace w ++ QueryOccurrences (getUSR (getSymbol Callee)) SymbolRole.Call
            :: map ReceiverCall pre /\
    (fst (direct Callee w) = true -> post = []) /\
    (fst (direct Callee w) = false -> pre <> []).
Proof.
  intros Hc Hd. split.
  - unfold foreachSymbolCallOccurrence. rewrite Hc, Hd. simpl.
    unfold bind. rewrite foreachSymbolOccurrenceByUSR_direct. unfold unitResult.
    now destruct (queryAndDeliver _ _ _ w) as [[|] w1].
  - destruct (direct Callee w) as [b w1] eqn:D. unfold queryAndDeliver in D.
    apply deliver_trace in D as (pre & post & E & T & Hb & Hb').
    exists pre, post. simpl in *. now rewrite T, <- app_assoc.
Qed.

(** C10. A callable callee with role Dynamic whose receiver-class set is
    empty after the rewriting of extensions: the outcome of the function is
    the outcome of the direct-call phase, so the receiver is invoked in that
    phase only and the one index query is the direct Call query; once that
    phase has run to its end, which is when the set is collected, the answer
    is [true]. *)
Theorem foreachSymbolCallOccurrence_no_receiver_class (fuel : nat)
        (Callee : SymbolOccurrence) (w : World) :
  isCallable (getSymbol Callee) = true ->
  containsAny (getRoles Callee) SymbolRole.Dynamic = true ->
  receiverClasses SymIndex Callee = [] ->
  foreachSymbolCallOccurrence isCallable SymIndex Receiver fuel Callee w =
  Some (direct Callee w) /\
  (forall w1, direct Callee w = (true, w1) ->
              foreachSymbolCallOccurrence isCallable SymIndex Receiver
                                          fuel Callee w = Some (true, w1)).
Proof.
  intros Hc Hd HC.
  assert (E : foreachSymbolCallOccurrence isCallable SymIndex Receiver
                                          fuel Callee w = Some (direct Callee w)).
  { rewrite foreachSymbolCallOccurrence_dynamic by assumption.
    rewrite HC. apply map_eq_nil in HC. rewrite HC.
    destruct (direct Callee w) as [[|] w1]; simpl; [|reflexivity].
    unfold ret, extensionQueries. simpl. rewrite app_nil_r. now destruct w1. }
  split; [exact E|]. intros w1 D. now rewrite E, D.
Qed.

(** C3. Once the receiver classes are collected, the loop over them turns
    every extension into the symbol of the first occurrence the index yields
    for its USR under RelationExtendedBy: the enumeration is stopped at that
    occurrence (its answer is [false]) and occurrences after it do not
    matter; the vector keeps its length and its other elements, one
    RelationExtendedBy query is sent per extension, and the rest of the
    function (the protocol test, the class symbols) runs on the rewritten
    vector. *)
Theorem replaceExtensions_first_hit (fuel : nat) (Callee : SymbolOccurrence)
        (w w1 : World) :
  isCallable (getSymbol Callee) = true ->
  containsAny (getRoles Callee) SymbolRole.Dynamic = true ->
  direct Callee w = (true, w1) ->
  let clsSyms := relatedSymbols (relationToUse Callee) Callee in
  let w2 := mkWorld (recvState w1) (trace w1 ++ extensionQueries clsSyms) in
  replaceExtensions SymIndex clsSyms w1 = Some (receiverClasses SymIndex Callee, w2) /\
  (forall i s, nth_error clsSyms i = Some s ->
               nth_error (receiverClasses SymIndex Callee) i =
               Some (extendedType SymIndex s)) /\
  (forall s Occur rest (w' : World),
      getSymbolKind s = Extension ->
      relatedOccurrencesByUSR SymIndex (getUSR s) SymbolRole.RelationExtendedBy =
      Occur :: rest ->
      extendedType SymIndex s = getSymbol Occur /\
      foreachRelatedSymbolOccurrenceByUSR SymIndex (getUSR s)
        SymbolRole.RelationExtendedBy
        (fun Occur _ => ret (false, getSymbol Occur)) s w' =
      Some ((false, getSymbol Occur),
            logEvent (QueryRelatedOccurrences (getUSR s)
                                              SymbolRole.RelationExtendedBy) w')) /\
  (forall s, getSymbolKind s <> Extension -> extendedType SymIndex s = s) /\
  foreachSymbolCallOccurrence isCallable SymIndex Receiver fuel Callee w =
  dynamicCallers SymIndex Receiver fuel (getSymbol Callee)
                 (receiverClasses SymIndex Callee) w2.
Proof.
  intros Hc Hd D clsSyms w2. split; [|split; [|split; [|split]]].
  - apply replaceExtensions_run.
  - intros i s Hi. unfold receiverClasses. fold clsSyms.
    now rewrite nth_error_map, Hi.
  - intros s Occur rest w' Hk Hr. unfold extendedType.
    rewrite Hk, Hr. simpl. split; [reflexivity|].
    unfold foreachRelatedSymbolOccurrenceByUSR, bind, emit. now rewrite Hr.
  - intros s Hk. unfold extendedType.
    now destruct (SymbolKind_eqb_spec (getSymbolKind s) Extension).
  - rewrite foreachSymbolCallOccurrence_dynamic by assumption. now rewrite D.
Qed.

Lemma dynamicCallers_classes (fuel : nat) (Sym : Symbol)
      (clsSyms : list Symbol) (c0 : Symbol) (rest : list Symbol) (w : World) :
  clsSyms = c0 :: rest ->
  getSymbolKind c0 <> Protocol ->
  dynamicCallers SymIndex Receiver fuel Sym clsSyms w =
  (ClassSyms <- collectClassSyms SymIndex fuel clsSyms ;;
   BaseMethodSyms <- getBaseMethodsOrClasses SymIndex fuel Sym ;;
   '(Continue, _) <-
     enumerate BaseMethodSyms
       (fun MethodSym _ =>
          foreachSymbolOccurrenceByUSR SymIndex (getUSR MethodSym)
            SymbolRole.Call (plain (dispatchReceiver Receiver ClassSyms)) tt)
       tt ;;
   ret Continue) w.
Proof.
  intros -> Hk. unfold dynamicCallers.
  now destruct (SymbolKind_eqb_spec (getSymbolKind c0) Protocol).
Qed.

Lemma deliverEach_ext (sel1 sel2 : string -> list SymbolOccurrence) :
  (forall USR, sel1 USR = sel2 USR) ->
  forall USRs (w : World),
    deliverEach Receiver sel1 USRs w = deliverEach Receiver sel2 USRs w.
Proof.
  intros E. induction USRs as [|u USRs IH]; intros w; simpl; [reflexivity|].
  rewrite E. destruct (queryAndDeliver _ _ _ w) as [[|] w']; auto.
Qed.

Lemma queriesOnly_after_rewriting (w1 w3 : World) (clsSyms : list Symbol) :
  queriesOnly (mkWorld (recvState w1) (trace w1 ++ extensionQueries clsSyms)) w3 ->
  receiverCalls (trace w3) = receiverCalls (trace w1).
Proof.
  intros H. rewrite (queriesOnly_receiverCalls H).
  apply (queriesOnly_receiverCalls (replaceExtensions_queriesOnly clsSyms w1)).
Qed.

(** C2. The protocol path.  For a callable callee with role Dynamic whose
    direct phase ran to its end and whose first receiver class, after the
    rewriting of extensions, is a protocol: the function computes the
    occurrences reached from the callee's symbol through RelationOverrideOf
    (each reached USR once), then for each of them in turn sends a Call query
    for its symbol's USR and hands the calls to the caller's receiver,
    stopping with [false] at the first refusal and answering [true]
    otherwise.  Nothing else happens after the rewriting: the world the
    deliveries start from is the one the closure leaves. *)
Theorem foreachSymbolCallOccurrence_protocol (U : list string) (fuel : nat)
        (Callee : SymbolOccurrence) (w w1 : World)
        (c0 : Symbol) (rest : list Symbol) :
  USRsWithin SymIndex U ->
  List.length U < fuel ->
  isCallable (getSymbol Callee) = true ->
  containsAny (getRoles Callee) SymbolRole.Dynamic = true ->
  direct Callee w = (true, w1) ->
  receiverClasses SymIndex Callee = c0 :: rest ->
  getSymbolKind c0 = Protocol ->
  let Sym := getSymbol Callee in
  let w2 := mkWorld (recvState w1)
                    (trace w1 ++ extensionQueries
                                   (relatedSymbols (relationToUse Callee) Callee)) in
  exists overrideSyms w3,
    getAllRelatedOccursImpl SymIndex fuel Sym SymbolRole.RelationOverrideOf [] w2 =
    Some (overrideSyms, w3) /\
    queriesOnly w2 w3 /\
    NoDup (map usrOf overrideSyms) /\
    (forall o, In o overrideSyms ->
               ReachOccur SymIndex SymbolRole.RelationOverrideOf Sym o) /\
    (forall o, ReachOccur SymIndex SymbolRole.RelationOverrideOf Sym o ->
               In (usrOf o) (map usrOf overrideSyms)) /\
    let r := deliverEach Receiver callsOf (map usrOf overrideSyms) w3 in
    foreachSymbolCallOccurrence isCallable SymIndex Receiver fuel Callee w =
    Some r /\
    exists pre post,
      flat_map callsOf (map usrOf overrideSyms) = pre ++ post /\
      receiverCalls (trace (snd r)) = receiverCalls (trace w1) ++ pre /\
      (fst r = true -> post = []).
Proof.
  intros HU Hfuel Hc Hd D HC Hk Sym w2.
  destruct (getAllRelatedOccursImpl_runs HU Hfuel SymbolRole.RelationOverrideOf
                                         Sym w2)
    as (L & w3 & E & Hq & Hn & Hp & Hcomplete).
  exists L, w3. do 5 (split; [assumption|]).
  intros r. split.
  - rewrite foreachSymbolCallOccurrence_dynamic by assumption.
    rewrite D, HC. unfold dynamicCallers. rewrite Hk. simpl.
    unfold bind at 1. fold Sym w2. rewrite E.
    unfold bind.
    rewrite (enumerate_deliverEach SymIndex Receiver usrOf (fun _ => true)
                                   (callReceiver Receiver))
      by reflexivity.
    unfold unitResult, ret.
    rewrite (deliverEach_ext _ callsOf) by (intros; apply filter_all).
    fold r. now destruct r.
  - destruct r as [b w'] eqn:R. unfold r in R.
    apply deliverEach_receiverCalls in R as (pre & post & E1 & T & Hb).
    exists pre, post. simpl.
    rewrite T, (@queriesOnly_after_rewriting w1 w3 _ Hq). auto.
Qed.

(** C1. The class-hierarchy path.  For a callable callee with role Dynamic
    whose direct phase ran to its end and whose first receiver class, after
    the rewriting of extensions, is not a protocol: [ClassSyms] holds the
    receiver classes and symbols reached from them, and every candidate of
    its elements, hence, where a USR identifies a symbol, every base reached
    from a receiver class; for each base method in turn the function sends a Call
    query for its USR and hands to the caller's receiver exactly the yielded
    occurrences that pass the filter (role Dynamic, and no received-by role
    or a received-by symbol whose USR is in [ClassSyms]); an occurrence that
    fails the filter leaves the world untouched.  The receiver calls of this
    phase are a prefix of the admitted calls of all base methods, the whole
    of them when the answer is [true]. *)
Theorem foreachSymbolCallOccurrence_class_hierarchy (U : list string)
        (fuel : nat) (Callee : SymbolOccurrence) (w w1 : World)
        (c0 : Symbol) (rest : list Symbol) :
  USRsWithin SymIndex U ->
  List.length U < fuel ->
  isCallable (getSymbol Callee) = true ->
  containsAny (getRoles Callee) SymbolRole.Dynamic = true ->
  direct Callee w = (true, w1) ->
  receiverClasses SymIndex Callee = c0 :: rest ->
  getSymbolKind c0 <> Protocol ->
  let Sym := getSymbol Callee in
  let C := receiverClasses SymIndex Callee in
  let w2 := mkWorld (recvState w1)
                    (trace w1 ++ extensionQueries
                                   (relatedSymbols (relationToUse Callee) Callee)) in
  exists ClassSyms w3 BaseMethodSyms w4,
    collectClassSyms SymIndex fuel C w2 = Some (ClassSyms, w3) /\
    (forall c, In c C -> In c ClassSyms) /\
    (forall x, In x ClassSyms ->
               In x C \/ exists c, In c C /\ Reach SymIndex c x) /\
    closedUnderCandidates SymIndex ClassSyms /\
    (kindByUSR SymIndex ClassSyms ->
     forall c y, In c C -> Reach SymIndex c y ->
                 In (getUSR y) (map getUSR ClassSyms)) /\
    getBaseMethodsOrClasses SymIndex fuel Sym w3 = Some (BaseMethodSyms, w4) /\
    (forall x, In x BaseMethodSyms -> Reach SymIndex Sym x) /\
    queriesOnly w2 w4 /\
    (forall Occur (w' : World),
        dispatchReceiver Receiver ClassSyms Occur w' =
        if admitted ClassSyms Occur then callReceiver Receiver Occur w'
        else Some (true, w')) /\
    let select := fun USR => filter (admitted ClassSyms) (callsOf USR) in
    let r := deliverEach Receiver select (map getUSR BaseMethodSyms) w4 in
    foreachSymbolCallOccurrence isCallable SymIndex Receiver fuel Callee w =
    Some r /\
    exists pre post,
      flat_map select (map getUSR BaseMethodSyms) = pre ++ post /\
      receiverCalls (trace (snd r)) = receiverCalls (trace w1) ++ pre /\
      (fst r = true -> post = []).
Proof.
  intros HU Hfuel Hc Hd D HC Hk Sym C w2.
  destruct (collectClassSyms_runs HU Hfuel C w2)
    as (ClassSyms & w3 & E3 & Hq3 & Hin & Hreach & Hclosed).
  destruct (getBaseMethodsOrClasses_runs HU Hfuel Sym w3)
    as (BaseMethodSyms & w4 & E4 & Hq4 & _ & Hbase & _).
  exists ClassSyms, w3, BaseMethodSyms, w4.
  do 4 (split; [assumption|]).
  split.
  { intros Hkind c y HcC Hy.
    exact (@closedUnderCandidates_reach SymIndex ClassSyms Hclosed Hkind
                                        c y (Hin c HcC) Hy). }
  do 2 (split; [assumption|]).
  split; [exact (queriesOnly_trans Hq3 Hq4)|].
  split; [apply dispatchReceiver_admitted|].
  intros select r. split.
  - rewrite foreachSymbolCallOccurrence_dynamic by assumption.
    rewrite D.
    change (dynamicCallers SymIndex Receiver fuel Sym C w2 = Some r).
    rewrite (@dynamicCallers_classes fuel Sym C c0 rest w2 HC Hk).
    unfold bind at 1. rewrite E3.
    unfold bind at 1. fold Sym. rewrite E4.
    unfold bind.
    rewrite (enumerate_deliverEach SymIndex Receiver getUSR
                                   (admitted ClassSyms)
                                   (dispatchReceiver Receiver ClassSyms))
      by apply dispatchReceiver_admitted.
    unfold unitResult, ret. fold select r. now destruct r.
  - destruct r as [b w'] eqn:R. unfold r in R.
    apply deliverEach_receiverCalls in R as (pre & post & E1 & T & Hb).
    exists pre, post. simpl.
    rewrite T, (@queriesOnly_after_rewriting w1 w4 _ (queriesOnly_trans Hq3 Hq4)).
    auto.
Qed.

(** C5. On a finite index, one whose symbols have their USRs in a list [U],
    both closure routines return from any accumulated list once the fuel
    exceeds the length of [U], and more fuel gives the same result: a
    candidate is recursed into only after its USR, absent from the list, was
    appended, so each level of the recursion uses up one USR of [U].  Cycles
    in the relations do not matter.  Started from the empty list, neither
    collects more elements than [U] has USRs. *)
Theorem closures_terminate (U : list string) (fuel : nat) (Sym : Symbol)
        (RoleSet : SymbolRoleSet) (BaseSyms : list Symbol)
        (RelSyms : list SymbolOccurrence) (w : World) :
  USRsWithin SymIndex U ->
  List.length U < fuel ->
  (exists added w',
      (forall fuel', fuel <= fuel' ->
         getBaseMethodsOrClassesImpl SymIndex fuel' Sym BaseSyms w =
         Some (BaseSyms ++ added, w')) /\
      (BaseSyms = [] -> List.length added <= List.length U)) /\
  (exists added w',
      (forall fuel', fuel <= fuel' ->
         getAllRelatedOccursImpl SymIndex fuel' Sym RoleSet RelSyms w =
         Some (RelSyms ++ added, w')) /\
      (RelSyms = [] -> List.length added <= List.length U)).
Proof.
  intros HU Hfuel. split.
  - destruct (getBaseMethodsOrClassesImpl_grows HU Sym BaseSyms w
                (@fuel_enough U fuel Hfuel _ getUSR BaseSyms))
      as (a & w' & E & Hq & Hn & Hp & _).
    exists a, w'. split.
    + intros fuel' Hle. eapply getBaseMethodsOrClassesImpl_fuel_le; eauto.
    + intros ->. simpl in Hn. rewrite <- (length_map getUSR).
      apply NoDup_incl_length; [apply Hn; constructor|].
      intros u Hu. apply in_map_iff in Hu as [x [<- Hx]].
      eapply Reach_within; eauto.
  - destruct (getAllRelatedOccursImpl_grows HU RoleSet Sym RelSyms w
                (@fuel_enough U fuel Hfuel _ usrOf RelSyms))
      as (a & w' & E & Hq & Hn & Hp & _).
    exists a, w'. split.
    + intros fuel' Hle. eapply getAllRelatedOccursImpl_fuel_le; eauto.
    + intros ->. simpl in Hn. rewrite <- (length_map usrOf).
      apply NoDup_incl_length; [apply Hn; constructor|].
      intros u Hu. apply in_map_iff in Hu as [x [<- Hx]].
      eapply ReachOccur_within; eauto.
Qed.

(** C4, as the code has it.  On a finite index [getBaseMethodsOrClasses]
    returns a list without two symbols of equal USR, all of them reached from
    the symbol by one or more base or override steps; the symbol's own USR is
    absent from the list when no such step sequence leads back to it. *)
Theorem getBaseMethodsOrClasses_distinct_USRs (U : list string) (fuel : nat)
        (Sym : Symbol) (w : World) :
  USRsWithin SymIndex U ->
  List.length U < fuel ->
  exists L w',
    getBaseMethodsOrClasses SymIndex fuel Sym w = Some (L, w') /\
    NoDup (map getUSR L) /\
    (forall x, In x L -> Reach SymIndex Sym x) /\
    ((forall x, Reach SymIndex Sym x -> getUSR x <> getUSR Sym) ->
     ~ In (getUSR Sym) (map getUSR L)).
Proof.
  intros HU Hfuel.
  destruct (getBaseMethodsOrClasses_runs HU Hfuel Sym w)
    as (L & w' & E & _ & Hn & Hp & _).
  exists L, w'. repeat split; auto.
  intros Hacyclic Hin. apply in_map_iff in Hin as [x [Ex Hx]].
  exact (Hacyclic x (Hp x Hx) Ex).
Qed.

End CallResolver.

(** ** The asynchronous delegate and the path queries *)

(** C8. With a user delegate present, [unitIsOutOfDate] called with
    [synchronous] true makes the call on the user delegate itself, so the
    delegate has received it when the call returns, and leaves the queue as
    it was; called with [synchronous] false it puts the event, with a copy of
    its arguments, at the back of the queue and makes no call on the user
    delegate. *)
Theorem unitIsOutOfDate_inline_or_queued (d : AsyncIndexDelegate)
        (received : list DelegateCall) (unitInfo : StoreUnitInfo)
        (outOfDateModTime : TimePoint) (hint : OutOfDateTriggerHint) :
  Other d = Some received ->
  unitIsOutOfDate unitInfo outOfDateModTime hint true d =
  mkAsyncIndexDelegate
    (Some (received ++ [UnitIsOutOfDate unitInfo outOfDateModTime hint true]))
    (Queue d) /\
  unitIsOutOfDate unitInfo outOfDateModTime hint false d =
  mkAsyncIndexDelegate
    (Some received)
    (Queue d ++ [UnitIsOutOfDate unitInfo outOfDateModTime hint false]).
Proof.
  intros HO. unfold unitIsOutOfDate, invokeOther, enqueue, dispatch.
  rewrite HO. split; reflexivity.
Qed.

(** C9. Two spellings with the same canonical path get the same answer from
    [isKnownFile], and the same enumeration, for every receiver and from
    every state, from [foreachMainUnitContainingFile],
    [foreachFileIncludingFile] and [foreachFileIncludedByFile]. *)
Theorem path_queries_spelling_invariant (PathIndex : FilePathIndex)
        (p1 p2 : string) :
  getCanonicalPath PathIndex p1 = getCanonicalPath PathIndex p2 ->
  isKnownFile PathIndex p1 = isKnownFile PathIndex p2 /\
  (forall St (receiver : StoreUnitInfo -> M St bool) (s : St),
      foreachMainUnitContainingFile PathIndex p1 receiver s =
      foreachMainUnitContainingFile PathIndex p2 receiver s) /\
  (forall St (Receiver : CanonicalFilePath -> N -> M St bool) (s : St),
      foreachFileIncludingFile PathIndex p1 Receiver s =
      foreachFileIncludingFile PathIndex p2 Receiver s) /\
  (forall St (Receiver : CanonicalFilePath -> N -> M St bool) (s : St),
      foreachFileIncludedByFile PathIndex p1 Receiver s =
      foreachFileIncludedByFile PathIndex p2 Receiver s).
Proof.
  intros E.
  unfold isKnownFile, foreachMainUnitContainingFile, foreachFileIncludingFile,
    foreachFileIncludedByFile.
  rewrite E. repeat split; reflexivity.
Qed.

(** ** The scenarios *)

Lemma storeIndex_within (store : list SymbolOccurrence) :
  USRsWithin (storeIndex store) (storeUSRs store).
Proof.
  assert (G : forall Occur, In Occur store ->
                In (getUSR (getSymbol Occur)) (storeUSRs store) /\
                forall Rel, In Rel (getRelations Occur) ->
                            In (getUSR (relSymbol Rel)) (storeUSRs store)).
  { intros Occur HO. unfold storeUSRs. split.
    - apply in_flat_map. exists Occur. split; [assumption|now left].
    - intros Rel HR. apply in_flat_map. exists Occur. split; [assumption|].
      right. apply in_map_iff. eauto. }
  intros USR RoleSet Occur [H|H]; simpl in H; apply filter_In in H as [H _];
    auto.
Qed.

Module ScenarioFacts.
Import Scenario.

(** Scenario 1: a direct call of a function that is not dynamic. *)
Example direct_call : handed (resolve callF) = Some (true, [callF]).
Proof. vm_compute. reflexivity. Qed.

(** Scenario 2: a dynamic call received by a protocol. *)
Example protocol_receiver :
  handed (resolve callA) = Some (true, [callA; callB; callC]).
Proof. vm_compute. reflexivity. Qed.

(** Scenario 3: a dynamic call received by a class of a hierarchy. *)
Example class_receiver :
  handed (resolve callX) = Some (true, [callX; callZ; callV]).
Proof. vm_compute. reflexivity. Qed.

(** Scenario 4: the receiver is an extension of [D]. *)
Example extension_receiver :
  receiverClasses index calleeViaExtension = [D] /\
  handed (resolve calleeViaExtension) = Some (true, [callX; callZ; callV]).
Proof. vm_compute. split; reflexivity. Qed.

(** A receiver that stops at its second call cuts the protocol scenario
    short: the answer is [false] and [callC] is never handed over. *)
Example protocol_receiver_stopped :
  handed (foreachSymbolCallOccurrence callableKind index (stopAt 2) fuel
                                      callA w0) =
  Some (false, [callA; callB]).
Proof. vm_compute. reflexivity. Qed.

(** The class symbols of scenario 3, in the order the code collects them, and
    the base methods of [m]. *)
Example class_symbols_of_D :
  option_map fst (collectClassSyms index fuel [D] w0) = Some [B; A; D] /\
  option_map fst (getBaseMethodsOrClasses index fuel m w0) = Some [m_B; m_A].
Proof. vm_compute. split; reflexivity. Qed.

(** In those class symbols a USR identifies a symbol. *)
Example class_symbols_kindByUSR : kindByUSR index [B; A; D].
Proof.
  assert (RA : forall c, Reach index A c -> False).
  { intros c H. inversion H as [c' Hc|c' x Hc Hr]; vm_compute in Hc; exact Hc. }
  assert (RB : forall c, Reach index B c -> c = A).
  { intros c H. inversion H as [c' Hc|c' x Hc Hr]; vm_compute in Hc;
      destruct Hc as [<-|[]]; [reflexivity|]. exfalso. eauto. }
  assert (RD : forall c, Reach index D c -> c = B \/ c = A).
  { intros c H. inversion H as [c' Hc|c' x Hc Hr]; vm_compute in Hc;
      destruct Hc as [<-|[]]; [now left|]. right. auto. }
  intros x x0 c Hx Hx0 Hr E. simpl in Hx, Hx0.
  destruct Hx0 as [<-|[<-|[<-|[]]]].
  - apply RB in Hr. subst c.
    destruct Hx as [<-|[<-|[<-|[]]]]; try reflexivity; discriminate E.
  - apply RA in Hr. contradiction.
  - apply RD in Hr as [-> | ->];
      destruct Hx as [<-|[<-|[<-|[]]]]; try reflexivity; discriminate E.
Qed.

(** Scenario 5: three events dispatched to the queue reach the user delegate
    in the order of their dispatch once the queue has been waited for. *)
Example delegate_ordering :
  _wait (processingCompleted 3%N
           (processedStoreUnit unitMain
              (processingAddedPending 3%N idle))) =
  mkAsyncIndexDelegate
    (Some [ProcessingAddedPending 3%N; ProcessedStoreUnit unitMain;
           ProcessingCompleted 3%N])
    [].
Proof. reflexivity. Qed.

(** Without a user delegate every event is dropped. *)
Example delegate_absent :
  unitIsOutOfDate unitMain 7%N hintMain true (mkAsyncIndexDelegate None []) =
  mkAsyncIndexDelegate None [] /\
  unitIsOutOfDate unitMain 7%N hintMain false (mkAsyncIndexDelegate None []) =
  mkAsyncIndexDelegate None [].
Proof. split; reflexivity. Qed.

(** The chain of a hint and the file at its root. *)
Example hint_chain :
  description hintMain = "unit(main.o) -> util.h" /\
  originalFileTrigger hintMain = "util.h".
Proof. split; reflexivity. Qed.

End ScenarioFacts.

(** ** The statements at the scenarios *)

Lemma some_pair_inv {A B} (a a' : A) (b b' : B) :
  Some (a, b) = Some (a', b') -> a = a' /\ b = b'.
Proof. intros H. injection H as -> ->. auto. Qed.

Module Witnesses.
Import Scenario.

Lemma not_callable_at_class :
  callableKind (getSymbol calleeClass) = false /\
  resolve calleeClass = Some (false, w0).
Proof.
  split; [reflexivity|].
  apply foreachSymbolCallOccurrence_not_callable. reflexivity.
Defined.

Lemma static_at_function :
  callableKind (getSymbol callF) = true /\
  containsAny (getRoles callF) SymbolRole.Dynamic = false /\
  resolve callF =
  Some (true, mkWorld [callF]
                      [QueryOccurrences "c:f" SymbolRole.Call; ReceiverCall callF]).
Proof.
  split; [reflexivity|]. split; [reflexivity|].
  destruct (foreachSymbolCallOccurrence_static callableKind index collect fuel
              callF w0 eq_refl eq_refl) as [H _].
  unfold resolve. rewrite H. vm_compute. reflexivity.
Defined.

Lemma no_receiver_class_at_untyped_call :
  callableKind (getSymbol calleeNoReceiver) = true /\
  containsAny (getRoles calleeNoReceiver) SymbolRole.Dynamic = true /\
  receiverClasses index calleeNoReceiver = [] /\
  resolve calleeNoReceiver =
  Some (true, mkWorld [callX]
                      [QueryOccurrences "c:m" SymbolRole.Call; ReceiverCall callX]).
Proof.
  split; [reflexivity|]. split; [reflexivity|]. split; [reflexivity|].
  destruct (foreachSymbolCallOccurrence_no_receiver_class callableKind index
              collect fuel calleeNoReceiver w0 eq_refl eq_refl eq_refl)
    as [_ H].
  apply H. vm_compute. reflexivity.
Defined.

Lemma first_hit_at_extension :
  let w1 := mkWorld [callX]
                    [QueryOccurrences "c:m" SymbolRole.Call; ReceiverCall callX] in
  queryAndDeliver collect "c:m" (callsOf index "c:m") w0 = (true, w1) /\
  relatedOccurrencesByUSR index "c:E" SymbolRole.RelationExtendedBy =
  [extendedByE; extendedByE2] /\
  replaceExtensions index [E] w1 =
  Some ([D],
        mkWorld [callX]
                [QueryOccurrences "c:m" SymbolRole.Call; ReceiverCall callX;
                 QueryRelatedOccurrences "c:E" SymbolRole.RelationExtendedBy]).
Proof.
  intros w1. split; [vm_compute; reflexivity|]. split; [vm_compute; reflexivity|].
  destruct (@replaceExtensions_first_hit callableKind index _ collect fuel
              calleeViaExtension w0 w1 eq_refl eq_refl
              ltac:(vm_compute; reflexivity))
    as [H _].
  exact H.
Defined.

Lemma protocol_at_conforming_methods :
  USRsWithin index U /\
  List.length U < fuel /\
  receiverClasses index callA = [P] /\
  exists r, resolve callA = Some r /\
            fst r = true /\
            receiverCalls (trace (snd r)) = [callA; callB; callC].
Proof.
  split; [apply storeIndex_within|]. split; [unfold fuel; lia|].
  split; [reflexivity|].
  destruct (@foreachSymbolCallOccurrence_protocol callableKind index _ collect
              U fuel callA w0
              (mkWorld [callA]
                       [QueryOccurrences "c:pm" SymbolRole.Call; ReceiverCall callA])
              P []
              (storeIndex_within store) (Nat.lt_succ_diag_r _)
              eq_refl eq_refl ltac:(vm_compute; reflexivity) eq_refl eq_refl)
    as (overrideSyms & w3 & _ & _ & _ & _ & _ & H & _).
  eexists. split; [exact H|].
  assert (E : option_map (fun r => (fst r, receiverCalls (trace (snd r))))
                         (resolve callA) =
              Some (true, [callA; callB; callC]))
    by (vm_compute; reflexivity).
  unfold resolve in E. rewrite H in E. cbv [option_map] in E.
  exact (@some_pair_inv _ _ _ _ _ _ E).
Defined.

Lemma class_hierarchy_at_dynamic_call :
  USRsWithin index U /\
  List.length U < fuel /\
  receiverClasses index callX = [D] /\
  exists r, resolve callX = Some r /\
            fst r = true /\
            receiverCalls (trace (snd r)) = [callX; callZ; callV].
Proof.
  split; [apply storeIndex_within|]. split; [unfold fuel; lia|].
  split; [reflexivity|].
  destruct (@foreachSymbolCallOccurrence_class_hierarchy callableKind index _
              collect U fuel callX w0
              (mkWorld [callX]
                       [QueryOccurrences "c:m" SymbolRole.Call; ReceiverCall callX])
              D []
              (storeIndex_within store) (Nat.lt_succ_diag_r _)
              eq_refl eq_refl ltac:(vm_compute; reflexivity) eq_refl
              ltac:(discriminate))
    as (ClassSyms & w3 & BaseMethodSyms & w4 &
        _ & _ & _ & _ & _ & _ & _ & _ & _ & H & _).
  eexists. split; [exact H|].
  assert (E : option_map (fun r => (fst r, receiverCalls (trace (snd r))))
                         (resolve callX) =
              Some (true, [callX; callZ; callV]))
    by (vm_compute; reflexivity).
  unfold resolve in E. rewrite H in E. cbv [option_map] in E.
  exact (@some_pair_inv _ _ _ _ _ _ E).
Defined.

Lemma closures_terminate_on_cycle :
  USRsWithin index U /\
  List.length U < fuel /\
  candidates index K1 = [K2] /\ candidates index K2 = [K1] /\
  (exists L w',
      getBaseMethodsOrClassesImpl index fuel K1 [] w0 = Some (L, w')) /\
  (exists L w',
      getAllRelatedOccursImpl index fuel K1 SymbolRole.RelationBaseOf [] w0 =
      Some (L, w')).
Proof.
  split; [apply storeIndex_within|]. split; [unfold fuel; lia|].
  split; [reflexivity|]. split; [reflexivity|].
  destruct (@closures_terminate index _ U fuel K1 SymbolRole.RelationBaseOf
              [] [] w0 (storeIndex_within store) (Nat.lt_succ_diag_r _))
    as [(a1 & w1 & H1 & _) (a2 & w2 & H2 & _)].
  split.
  - exists a1, w1. apply (H1 fuel). apply Nat.le_refl.
  - exists a2, w2. apply (H2 fuel). apply Nat.le_refl.
Defined.

Lemma distinct_USRs_at_hierarchy :
  USRsWithin index U /\
  List.length U < fuel /\
  exists L w',
    getBaseMethodsOrClasses index fuel D w0 = Some (L, w') /\
    NoDup (map getUSR L) /\
    ~ In (getUSR D) (map getUSR L).
Proof.
  split; [apply storeIndex_within|]. split; [unfold fuel; lia|].
  destruct (@getBaseMethodsOrClasses_distinct_USRs index _ U fuel D w0
              (storeIndex_within store) (Nat.lt_succ_diag_r _))
    as (L & w' & E & Hn & _ & _).
  exists L, w'. split; [exact E|]. split; [exact Hn|].
  vm_compute in E. injection E as <- _.
  simpl. intros [H|[H|[]]]; discriminate.
Defined.

(** C4 as stated fails where the base relation has a cycle: [K1] and [K2]
    are each the base of the other, and the bases computed for [K1] are [K2]
    and then [K1] itself. *)
Lemma cyclic_bases_hold_the_symbol :
  option_map fst (getBaseMethodsOrClasses index fuel K1 w0) = Some [K2; K1] /\
  ~ (forall L w',
        getBaseMethodsOrClasses index fuel K1 w0 = Some (L, w') ->
        ~ In (getUSR K1) (map getUSR L)).
Proof.
  split; [vm_compute; reflexivity|].
  intros H.
  destruct (getBaseMethodsOrClasses index fuel K1 w0) as [[L w']|] eqn:E;
    vm_compute in E; [|discriminate].
  apply (H L w' eq_refl). injection E as <- _. simpl. auto.
Defined.

Lemma out_of_date_at_idle_delegate :
  Other idle = Some [] /\
  unitIsOutOfDate unitMain 7%N hintMain true idle =
  mkAsyncIndexDelegate (Some [UnitIsOutOfDate unitMain 7%N hintMain true]) [] /\
  unitIsOutOfDate unitMain 7%N hintMain false idle =
  mkAsyncIndexDelegate (Some []) [UnitIsOutOfDate unitMain 7%N hintMain false].
Proof.
  split; [reflexivity|].
  exact (@unitIsOutOfDate_inline_or_queued idle [] unitMain 7%N hintMain eq_refl).
Defined.

Lemma spellings_of_a_c :
  getCanonicalPath paths "./a.c" = getCanonicalPath paths "a.c" /\
  isKnownFile paths "./a.c" = true /\
  isKnownFile paths "./a.c" = isKnownFile paths "a.c".
Proof.
  split; [reflexivity|]. split; [reflexivity|].
  apply (@path_queries_spelling_invariant paths "./a.c" "a.c" eq_refl).
Defined.

End Witnesses.

(* ================================================================== *)
(** * Further properties of the facade *)

(** ** Hints *)

Lemma string_app_assoc (a b c : string) : (a ++ b ++ c = (a ++ b) ++ c)%string.
Proof. induction a as [|x a IH]; simpl; [reflexivity|]. now rewrite IH. Qed.

(** X1. The description of a hint is the chain of its unit names, each as
    [unit(NAME) -> ], followed by the file [originalFileTrigger] returns: the
    description always ends with the original file. *)
Theorem description_ends_with_originalFileTrigger (hint : OutOfDateTriggerHint) :
  description hint =
  (chainPrefix (unitNames hint) ++ originalFileTrigger hint)%string.
Proof.
  induction hint as [FilePath|UnitName DepHint IH]; simpl; [reflexivity|].
  rewrite IH. f_equal. f_equal.
  rewrite <- !string_app_assoc. reflexivity.
Qed.

(** ** The asynchronous delegate under any schedule *)

Lemma report_present (call : DelegateCall) (d : AsyncIndexDelegate)
      (received : list DelegateCall) :
  Other d = Some received ->
  report call d =
  if isSynchronous call
  then mkAsyncIndexDelegate (Some (received ++ [call])) (Queue d)
  else mkAsyncIndexDelegate (Some received) (Queue d ++ [call]).
Proof.
  intros HO.
  destruct call as [n|n|u|u t h [|]]; simpl;
    unfold processingAddedPending, processingCompleted, processedStoreUnit,
      unitIsOutOfDate, enqueue, invokeOther, dispatch;
    rewrite HO; reflexivity.
Qed.

Lemma asynchronousOf_app (xs ys : list DelegateCall) :
  asynchronousOf (xs ++ ys) = asynchronousOf xs ++ asynchronousOf ys.
Proof. apply filter_app. Qed.

Lemma synchronousOf_app (xs ys : list DelegateCall) :
  synchronousOf (xs ++ ys) = synchronousOf xs ++ synchronousOf ys.
Proof. apply filter_app. Qed.

Lemma asynchronousOf_all (q : list DelegateCall) :
  forallb (fun call => negb (isSynchronous call)) q = true ->
  asynchronousOf q = q /\ synchronousOf q = [].
Proof.
  induction q as [|t q IH]; simpl; [auto|].
  intros H. apply andb_true_iff in H as [Ht Hq].
  destruct (IH Hq) as [E1 E2].
  destruct (isSynchronous t); simpl in *; [discriminate|].
  now rewrite E1, E2.
Qed.

(** What every schedule keeps: the user delegate stays in place, the queue
    holds asynchronous calls only, the synchronous calls received are those
    reported, and the asynchronous calls received followed by the queue are
    those reported, all in the order of the reports. *)
Lemma run_invariant (schedule : list Action) :
  forall (d : AsyncIndexDelegate) (received : list DelegateCall),
    Other d = Some received ->
    forallb (fun call => negb (isSynchronous call)) (Queue d) = true ->
    exists received',
      Other (run schedule d) = Some received' /\
      forallb (fun call => negb (isSynchronous call))
              (Queue (run schedule d)) = true /\
      synchronousOf received' =
      synchronousOf received ++ synchronousOf (reported schedule) /\
      asynchronousOf received' ++ Queue (run schedule d) =
      asynchronousOf received ++ Queue d ++ asynchronousOf (reported schedule).
Proof.
  induction schedule as [|a schedule IH]; intros d received HO HQ.
  - exists received. simpl. rewrite !app_nil_r. auto.
  - simpl. destruct a as [call|].
    + simpl. rewrite (report_present call d HO).
      destruct (isSynchronous call) eqn:Es.
      * destruct (IH (mkAsyncIndexDelegate (Some (received ++ [call])) (Queue d))
                     (received ++ [call]) eq_refl HQ)
          as (r' & E & Q & S & A).
        exists r'. split; [exact E|]. split; [exact Q|]. simpl in *.
        rewrite S, A, synchronousOf_app, asynchronousOf_app.
        unfold synchronousOf, asynchronousOf. simpl. rewrite ?Es. simpl.
        rewrite ?app_nil_r, <- ?app_assoc. simpl. auto.
      * assert (HQ' : forallb (fun call => negb (isSynchronous call))
                              (Queue d ++ [call]) = true).
        { rewrite forallb_app, HQ. simpl. now rewrite Es. }
        destruct (IH (mkAsyncIndexDelegate (Some received) (Queue d ++ [call]))
                     received eq_refl HQ')
          as (r' & E & Q & S & A).
        exists r'. split; [exact E|]. split; [exact Q|]. simpl in *.
        rewrite S, A. unfold synchronousOf, asynchronousOf. simpl.
        rewrite ?Es. simpl. rewrite ?app_nil_r, <- ?app_assoc. simpl. auto.
    + simpl. unfold runNextTask.
      destruct (Queue d) as [|task rest] eqn:EQ.
      * destruct (IH d received HO) as (r' & E & Q & S & A);
          [now rewrite EQ|].
        exists r'. rewrite EQ in A. auto.
      * simpl in HQ. apply andb_true_iff in HQ as [Ht Hrest].
        unfold invokeOther. simpl. rewrite HO. simpl.
        destruct (IH (mkAsyncIndexDelegate (Some (received ++ [task])) rest)
                     (received ++ [task]) eq_refl Hrest)
          as (r' & E & Q & S & A).
        exists r'. split; [exact E|]. split; [exact Q|]. simpl in *.
        rewrite S, A, synchronousOf_app, asynchronousOf_app.
        unfold synchronousOf, asynchronousOf. simpl.
        destruct (isSynchronous task); [discriminate|]. simpl.
        rewrite ?app_nil_r, <- ?app_assoc. simpl. auto.
Qed.

Lemma _wait_present (d : AsyncIndexDelegate) (received : list DelegateCall) :
  Other d = Some received ->
  _wait d = mkAsyncIndexDelegate (Some (received ++ Queue d)) [].
Proof.
  intros HO. unfold _wait. rewrite HO.
  generalize received. clear HO received.
  induction (Queue d) as [|t q IH]; intros received; simpl.
  - now rewrite app_nil_r.
  - unfold invokeOther at 2. simpl. rewrite IH, <- app_assoc. reflexivity.
Qed.

(** X2. A wrapper constructed without a user delegate stays as constructed
    under every schedule of reports and worker steps: every method returns at
    once and nothing is ever queued. *)
Theorem run_without_delegate (schedule : list Action) :
  run schedule (newAsyncIndexDelegate None) = newAsyncIndexDelegate None.
Proof.
  induction schedule as [|a schedule IH]; [reflexivity|].
  simpl. destruct a as [[n|n|u|u t h sync]|]; exact IH.
Qed.

(** X3. Serial order.  Whatever the schedule of reports and worker steps on
    a wrapper constructed around a user delegate, the asynchronous calls the
    delegate has received, followed by the tasks still queued, are the
    asynchronous calls reported, in the order of the reports; the synchronous
    calls it has received are the synchronous reports, in order. *)
Theorem run_serial_order (received : list DelegateCall)
        (schedule : list Action) :
  let d := run schedule (newAsyncIndexDelegate (Some received)) in
  exists received',
    Other d = Some received' /\
    synchronousOf received' =
    synchronousOf received ++ synchronousOf (reported schedule) /\
    asynchronousOf received' ++ Queue d =
    asynchronousOf received ++ asynchronousOf (reported schedule).
Proof.
  intros d.
  destruct (run_invariant schedule (newAsyncIndexDelegate (Some received))
                          eq_refl eq_refl)
    as (r' & E & _ & S & A).
  exists r'. auto.
Qed.

(** X4. [pollForUnitChangesAndWait] returns with the queue empty and every
    call reported during the poll received by the user delegate, whatever
    the worker did meanwhile: the asynchronous ones in the order of their
    report, and so the synchronous ones. *)
Theorem pollForUnitChangesAndWait_drains (received : list DelegateCall)
        (poll : list Action) :
  exists received',
    pollForUnitChangesAndWait poll (newAsyncIndexDelegate (Some received)) =
    mkAsyncIndexDelegate (Some received') [] /\
    synchronousOf received' =
    synchronousOf received ++ synchronousOf (reported poll) /\
    asynchronousOf received' =
    asynchronousOf received ++ asynchronousOf (reported poll).
Proof.
  destruct (run_invariant poll (newAsyncIndexDelegate (Some received))
                          eq_refl eq_refl)
    as (r' & E & Q & S & A).
  exists (r' ++ Queue (run poll (newAsyncIndexDelegate (Some received)))).
  unfold pollForUnitChangesAndWait. rewrite (_wait_present _ E).
  destruct (asynchronousOf_all _ Q) as [E1 E2].
  rewrite synchronousOf_app, asynchronousOf_app, E1, E2, app_nil_r.
  auto.
Qed.

(** X5. With tasks pending in the queue, a synchronous out-of-date report
    reaches the user delegate before them, an asynchronous one after them:
    once the queue has been waited for, the delegate has received the
    synchronous call first and then the pending tasks, or the pending tasks
    and then the asynchronous call. *)
Theorem unitIsOutOfDate_overtakes_queue (d : AsyncIndexDelegate)
        (received : list DelegateCall) (unitInfo : StoreUnitInfo)
        (outOfDateModTime : TimePoint) (hint : OutOfDateTriggerHint) :
  Other d = Some received ->
  _wait (unitIsOutOfDate unitInfo outOfDateModTime hint true d) =
  mkAsyncIndexDelegate
    (Some (received ++
           UnitIsOutOfDate unitInfo outOfDateModTime hint true :: Queue d))
    [] /\
  _wait (unitIsOutOfDate unitInfo outOfDateModTime hint false d) =
  mkAsyncIndexDelegate
    (Some (received ++ Queue d ++
           [UnitIsOutOfDate unitInfo outOfDateModTime hint false]))
    [].
Proof.
  intros HO. unfold unitIsOutOfDate. rewrite HO. split.
  - rewrite (@_wait_present _ (received ++
               [UnitIsOutOfDate unitInfo outOfDateModTime hint true]))
      by (unfold invokeOther; now rewrite HO).
    simpl. now rewrite <- app_assoc.
  - rewrite (@_wait_present _ received) by exact HO.
    reflexivity.
Qed.

(** ** Construction *)

Module ConstructionProperties.
Import Construction.

Section Create.
Variable env : Environment.
Variables StorePath dbasePath : string.
Variable Delegate : option (list DelegateCall).
Variables useExplicitOutputUnits readonly enableOutOfDateFileWatching
          listenToUnitEvents waitUntilDoneInitializing : bool.
Variable initialDBSize : option N.
Variable Error : string.

(** X6. [IndexSystem::create] returns a facade exactly when the database
    opens, the provider has a library for the store path, the store opens
    with it and the datastore initialises; whether the directories of the
    store path could be created plays no part. *)
Theorem create_succeeds_iff :
  (exists Impl, fst (create env StorePath dbasePath Delegate
          useExplicitOutputUnits readonly enableOutOfDateFileWatching
          listenToUnitEvents waitUntilDoneInitializing initialDBSize Error) = Some Impl) <->
  databaseCreate env dbasePath readonly initialDBSize = Created /\
  exists idxStoreLib,
    getLibraryForStorePath env StorePath = Some idxStoreLib /\
    indexStoreCreate env StorePath idxStoreLib = Created /\
    datastoreCreate env (mkIndexStoreRef StorePath idxStoreLib)
                    useExplicitOutputUnits readonly
                    enableOutOfDateFileWatching listenToUnitEvents
                    waitUntilDoneInitializing = Created.
Proof.
  unfold create, init.
  destruct (databaseCreate env dbasePath readonly initialDBSize) as [|w1];
    [|split; [intros [? H]; discriminate H|intros [H _]; discriminate H]].
  destruct (getLibraryForStorePath env StorePath) as [lib|];
    [|split; [intros [? H]; discriminate H
             |intros [_ [? [H _]]]; discriminate H]].
  destruct (indexStoreCreate env StorePath lib) as [|w2] eqn:ES;
    [|split; [intros [? H]; discriminate H
             |intros [_ [l [H1 [H2 _]]]]; injection H1 as <-; congruence]].
  destruct (datastoreCreate env (mkIndexStoreRef StorePath lib) _ _ _ _ _)
    as [|w3] eqn:ED.
  - split; [|intros _; simpl; eauto].
    intros _. split; [reflexivity|]. exists lib. auto.
  - split; [intros [? H]; discriminate H|].
    intros [_ [l [H1 [_ H3]]]]. injection H1 as <-. congruence.
Qed.

(** X7. A facade that [create] returns is fully initialised: the two paths
    are recorded, the delegate wrapper wraps the given delegate with an empty
    queue, and the visibility checker, the two sub-indexes and the datastore
    are all set, built on the one database, store and visibility checker,
    the datastore on that symbol index and wrapper with every flag
    forwarded. *)
Theorem create_fully_initialised (Impl : IndexSystemImpl) :
  fst (create env StorePath dbasePath Delegate
          useExplicitOutputUnits readonly enableOutOfDateFileWatching
          listenToUnitEvents waitUntilDoneInitializing initialDBSize Error) = Some Impl ->
  exists idxStoreLib,
    getLibraryForStorePath env StorePath = Some idxStoreLib /\
    let dbase := mkDatabase dbasePath readonly initialDBSize in
    let idxStore := mkIndexStoreRef StorePath idxStoreLib in
    let checker :=
      mkFileVisibilityChecker dbase mkCanonicalPathCache
                              useExplicitOutputUnits in
    let symIndex := mkSymbolIndexRef dbase idxStore checker in
    Construction.StorePath Impl = StorePath /\
    DBasePath Impl = dbasePath /\
    DelegateWrap Impl = Some (newAsyncIndexDelegate Delegate) /\
    VisibilityChecker Impl = Some checker /\
    SymIndex Impl = Some symIndex /\
    PathIndex Impl =
    Some (mkFilePathIndexRef dbase idxStore checker mkCanonicalPathCache) /\
    IndexStore Impl =
    Some (mkIndexDatastore idxStore symIndex (newAsyncIndexDelegate Delegate)
                           mkCanonicalPathCache useExplicitOutputUnits
                           readonly enableOutOfDateFileWatching
                           listenToUnitEvents waitUntilDoneInitializing).
Proof.
  unfold create, init.
  destruct (databaseCreate env dbasePath readonly initialDBSize);
    [|discriminate].
  destruct (getLibraryForStorePath env StorePath) as [lib|]; [|discriminate].
  destruct (indexStoreCreate env StorePath lib); [|discriminate].
  destruct (datastoreCreate env _ _ _ _ _ _); [|discriminate].
  simpl. intros H. injection H as <-. exists lib. simpl. auto 10.
Qed.

(** X8. The soft failure.  When the facade is not read-only and the
    directories of the store path cannot be created, but the store opens all
    the same and the datastore initialises, [create] returns a facade and the
    error string holds the message about the directories. *)
Theorem create_succeeds_with_directory_error (idxStoreLib message : string) :
  readonly = false ->
  create_directories env StorePath = Some message ->
  databaseCreate env dbasePath readonly initialDBSize = Created ->
  getLibraryForStorePath env StorePath = Some idxStoreLib ->
  indexStoreCreate env StorePath idxStoreLib = Created ->
  datastoreCreate env (mkIndexStoreRef StorePath idxStoreLib)
                  useExplicitOutputUnits readonly
                  enableOutOfDateFileWatching listenToUnitEvents
                  waitUntilDoneInitializing = Created ->
  (exists Impl, fst (create env StorePath dbasePath Delegate
          useExplicitOutputUnits readonly enableOutOfDateFileWatching
          listenToUnitEvents waitUntilDoneInitializing initialDBSize Error) = Some Impl) /\
  snd (create env StorePath dbasePath Delegate
          useExplicitOutputUnits readonly enableOutOfDateFileWatching
          listenToUnitEvents waitUntilDoneInitializing initialDBSize Error) =
  ("could not create directories for data store path "
     ++ StorePath ++ ": " ++ message)%string.
Proof.
  intros Hr Hd H1 H2 H3 H4. unfold create, init.
  rewrite H1, H2, H3, H4, Hr, Hd. simpl. eauto.
Qed.

(** X9. The facade [create] returns, or its absence, never depends on the
    answer of [create_directories]; for a read-only facade the error string
    does not either: the file system is not asked. *)
Theorem create_result_ignores_directories (answer : string -> option string) :
  fst (create (withDirectories answer env) StorePath dbasePath Delegate
          useExplicitOutputUnits readonly enableOutOfDateFileWatching
          listenToUnitEvents waitUntilDoneInitializing initialDBSize Error) =
  fst (create env StorePath dbasePath Delegate
          useExplicitOutputUnits readonly enableOutOfDateFileWatching
          listenToUnitEvents waitUntilDoneInitializing initialDBSize Error) /\
  (readonly = true ->
   create (withDirectories answer env) StorePath dbasePath Delegate
      useExplicitOutputUnits readonly enableOutOfDateFileWatching
      listenToUnitEvents waitUntilDoneInitializing initialDBSize Error =
   create env StorePath dbasePath Delegate
      useExplicitOutputUnits readonly enableOutOfDateFileWatching
      listenToUnitEvents waitUntilDoneInitializing initialDBSize Error).
Proof.
  unfold create, init, withDirectories. simpl. split.
  - destruct (databaseCreate env dbasePath readonly initialDBSize);
      [|reflexivity].
    destruct (getLibraryForStorePath env StorePath) as [lib|]; [|reflexivity].
    destruct (indexStoreCreate env StorePath lib); [|reflexivity].
    destruct (datastoreCreate env _ _ _ _ _ _); reflexivity.
  - intros ->. reflexivity.
Qed.

(** X10. When the database opens and the provider has no library for the
    store path, [create] returns null with the error string set to the
    library message, whatever the string held and whatever the store, the
    file system and the datastore would have answered. *)
Theorem create_without_library :
  databaseCreate env dbasePath readonly initialDBSize = Created ->
  getLibraryForStorePath env StorePath = None ->
  forall (answer : string -> option string)
         (store : string -> string -> Attempt)
         (datastore : IndexStoreRef -> bool -> bool -> bool -> bool -> bool ->
                      Attempt),
    create (mkEnvironment (databaseCreate env) (getLibraryForStorePath env)
                          answer store datastore)
           StorePath dbasePath Delegate useExplicitOutputUnits readonly
           enableOutOfDateFileWatching listenToUnitEvents
           waitUntilDoneInitializing initialDBSize Error =
    (None, "could not determine indexstore library").
Proof.
  intros H1 H2 answer store datastore. unfold create, init. simpl.
  now rewrite H1, H2.
Qed.

End Create.

End ConstructionProperties.

(** ** The call resolver on a finite index *)

Section ResolverOutcome.
Variable isCallable : Symbol -> bool.
Variable SymIndex : SymbolIndex.
Variable RS : Type.
Variable Receiver : SymbolOccurrence -> RS -> bool * RS.

Local Abbreviation World := (World RS).
Local Abbreviation usrOf := (fun o : SymbolOccurrence => getUSR (getSymbol o)).
Local Abbreviation callsOf := (callsOf SymIndex).
Local Abbreviation direct :=
  (fun Callee : SymbolOccurrence =>
     queryAndDeliver Receiver (getUSR (getSymbol Callee))
                     (callsOf (getUSR (getSymbol Callee)))).
Local Abbreviation resolver :=
  (foreachSymbolCallOccurrence isCallable SymIndex Receiver).

Lemma bind_mono {A B} (m1 m2 : M World A) (k1 k2 : A -> M World B) :
  (forall s r, m1 s = Some r -> m2 s = Some r) ->
  (forall a s r, k1 a s = Some r -> k2 a s = Some r) ->
  forall s r, bind m1 k1 s = Some r -> bind m2 k2 s = Some r.
Proof.
  intros Hm Hk s r. unfold bind.
  destruct (m1 s) as [[a s1]|] eqn:E; [|discriminate].
  rewrite (Hm _ _ E). apply Hk.
Qed.

Lemma collectClassSyms_fuel_le (fuel fuel' : nat) (clsSyms : list Symbol) :
  fuel <= fuel' ->
  forall (w : World) r,
    collectClassSyms SymIndex fuel clsSyms w = Some r ->
    collectClassSyms SymIndex fuel' clsSyms w = Some r.
Proof.
  intros Hle w r. unfold collectClassSyms. apply forEach_mono.
  intros c L s r'. apply bind_mono; [|auto].
  intros s' r''. now apply getBaseMethodsOrClassesImpl_fuel_le.
Qed.

Lemma dynamicCallers_fuel_le (fuel fuel' : nat) (Sym : Symbol)
      (clsSyms : list Symbol) :
  fuel <= fuel' ->
  forall (w : World) r,
    dynamicCallers SymIndex Receiver fuel Sym clsSyms w = Some r ->
    dynamicCallers SymIndex Receiver fuel' Sym clsSyms w = Some r.
Proof.
  intros Hle w r. unfold dynamicCallers.
  destruct clsSyms as [|c0 rest]; [auto|].
  destruct (SymbolKind_eqb (getSymbolKind c0) Protocol).
  - apply bind_mono; [|auto].
    intros s r'. now apply getAllRelatedOccursImpl_fuel_le.
  - apply bind_mono.
    + intros s r'. now apply collectClassSyms_fuel_le.
    + intros ClassSyms s r'. apply bind_mono; [|auto].
      intros s' r''. unfold getBaseMethodsOrClasses.
      now apply getBaseMethodsOrClassesImpl_fuel_le.
Qed.

Lemma foreachSymbolCallOccurrence_fuel_le (fuel fuel' : nat)
      (Callee : SymbolOccurrence) :
  fuel <= fuel' ->
  forall (w : World) r,
    resolver fuel Callee w = Some r -> resolver fuel' Callee w = Some r.
Proof.
  intros Hle w r. unfold foreachSymbolCallOccurrence.
  destruct (negb (isCallable (getSymbol Callee))); [auto|].
  apply bind_mono; [auto|].
  intros [Continue u] s r'.
  destruct (negb Continue); [auto|].
  destruct (negb (containsAny (getRoles Callee) SymbolRole.Dynamic)); [auto|].
  apply bind_mono; [auto|].
  intros clsSyms s' r''. now apply dynamicCallers_fuel_le.
Qed.

Lemma dynamicCallers_protocol (fuel : nat) (Sym : Symbol)
      (c0 : Symbol) (rest : list Symbol) (w : World) :
  getSymbolKind c0 = Protocol ->
  dynamicCallers SymIndex Receiver fuel Sym (c0 :: rest) w =
  (overrideSyms <-
     getAllRelatedOccursImpl SymIndex fuel Sym SymbolRole.RelationOverrideOf [] ;;
   '(Continue, _) <-
     enumerate overrideSyms
       (fun occur _ =>
          foreachSymbolOccurrenceByUSR SymIndex (getUSR (getSymbol occur))
            SymbolRole.Call (plain (callReceiver Receiver)) tt)
       tt ;;
   ret Continue) w.
Proof. intros Hk. unfold dynamicCallers. now rewrite Hk. Qed.

(** The shapes the outcome of the resolver can take for a callable callee on
    a finite index: the outcome of the direct phase, or, that phase having
    run to its end, some queries followed by the delivery of selected calls
    of a list of USRs. *)
Lemma foreachSymbolCallOccurrence_outcome (U : list string) (fuel : nat)
      (Callee : SymbolOccurrence) (w : World) :
  USRsWithin SymIndex U ->
  List.length U < fuel ->
  isCallable (getSymbol Callee) = true ->
  exists r,
    resolver fuel Callee w = Some r /\
    (r = direct Callee w \/
     exists w1 w3 select USRs,
       direct Callee w = (true, w1) /\
       queriesOnly w1 w3 /\
       (forall USR, incl (select USR) (callsOf USR)) /\
       r = deliverEach Receiver select USRs w3).
Proof.
  intros HU Hfuel Hc.
  destruct (containsAny (getRoles Callee) SymbolRole.Dynamic) eqn:Hd.
  - rewrite (foreachSymbolCallOccurrence_dynamic isCallable SymIndex Receiver
               fuel Callee w Hc Hd).
    destruct (direct Callee w) as [[|] w1] eqn:D; [|eauto].
    set (cls := relatedSymbols (relationToUse Callee) Callee).
    set (w2 := mkWorld (recvState w1) (trace w1 ++ extensionQueries cls)).
    assert (Hq2 : queriesOnly w1 w2)
      by apply replaceExtensions_queriesOnly.
    destruct (receiverClasses SymIndex Callee) as [|c0 rest] eqn:HC.
    + exists (true, w1). split; [|now left].
      unfold receiverClasses in HC. apply map_eq_nil in HC.
      unfold w2, cls. rewrite HC. unfold extensionQueries. simpl.
      rewrite app_nil_r. now destruct w1.
    + destruct (SymbolKind_eqb_spec (getSymbolKind c0) Protocol) as [Hk|Hk].
      * destruct (getAllRelatedOccursImpl_runs HU Hfuel
                    SymbolRole.RelationOverrideOf (getSymbol Callee) w2)
          as (L & w3 & E & Hq & _).
        exists (deliverEach Receiver
                            (fun USR => filter (fun _ => true) (callsOf USR))
                            (map usrOf L) w3).
        split.
        -- rewrite (@dynamicCallers_protocol fuel (getSymbol Callee) c0 rest
                                              w2 Hk).
           unfold bind at 1. rewrite E. unfold bind.
           rewrite (enumerate_deliverEach SymIndex Receiver usrOf
                      (fun _ => true) (callReceiver Receiver))
             by reflexivity.
           unfold unitResult, ret.
           now destruct (deliverEach _ _ _ w3).
        -- right. exists w1, w3. do 2 eexists.
           split; [reflexivity|].
           split; [exact (queriesOnly_trans Hq2 Hq)|].
           split; [|reflexivity].
           intros USR o Ho. now apply filter_In in Ho.
      * destruct (collectClassSyms_runs HU Hfuel (c0 :: rest) w2)
          as (ClassSyms & w3 & E3 & Hq3 & _).
        destruct (getBaseMethodsOrClasses_runs HU Hfuel (getSymbol Callee) w3)
          as (BaseMethodSyms & w4 & E4 & Hq4 & _).
        exists (deliverEach Receiver
                            (fun USR => filter (admitted ClassSyms) (callsOf USR))
                            (map getUSR BaseMethodSyms) w4).
        split.
        -- rewrite (@dynamicCallers_classes SymIndex RS Receiver fuel
                      (getSymbol Callee) (c0 :: rest) c0 rest w2 eq_refl Hk).
           unfold bind at 1. rewrite E3.
           unfold bind at 1. rewrite E4. unfold bind.
           rewrite (enumerate_deliverEach SymIndex Receiver getUSR
                      (admitted ClassSyms)
                      (dispatchReceiver Receiver ClassSyms))
             by apply dispatchReceiver_admitted.
           unfold unitResult, ret.
           now destruct (deliverEach _ _ _ w4).
        -- right. exists w1, w4. do 2 eexists.
           split; [reflexivity|].
           split; [exact (queriesOnly_trans Hq2 (queriesOnly_trans Hq3 Hq4))|].
           split; [|reflexivity].
           intros USR o Ho. now apply filter_In in Ho.
  - exists (direct Callee w). split; [|now left].
    unfold foreachSymbolCallOccurrence. rewrite Hc, Hd. simpl.
    unfold bind. rewrite foreachSymbolOccurrenceByUSR_direct. unfold unitResult.
    now destruct (queryAndDeliver _ _ _ w) as [[|] w1].
Qed.

Lemma deliver_accepting (xs : list SymbolOccurrence) :
  (forall o s, fst (Receiver o s) = true) ->
  forall w : World, fst (deliver Receiver xs w) = true.
Proof.
  intros Hacc. induction xs as [|o xs IH]; intros w; simpl; [reflexivity|].
  specialize (Hacc o (recvState w)).
  destruct (Receiver o (recvState w)) as [b s']. simpl in Hacc. subst b.
  apply IH.
Qed.

Lemma deliverEach_accepting (select : string -> list SymbolOccurrence)
      (USRs : list string) :
  (forall o s, fst (Receiver o s) = true) ->
  forall w : World, fst (deliverEach Receiver select USRs w) = true.
Proof.
  intros Hacc. induction USRs as [|u USRs IH]; intros w; simpl; [reflexivity|].
  pose proof (deliver_accepting (select u) Hacc
                (logEvent (QueryOccurrences u SymbolRole.Call) w)) as H.
  unfold queryAndDeliver.
  destruct (deliver Receiver (select u) _) as [b w']. simpl in H. subst b.
  apply IH.
Qed.



(** X11. On a finite index the resolver returns for every callee once the
    fuel exceeds the number of USRs of the index, and any larger fuel gives
    the same answer and the same world: the recursion of the closures is the
    only thing the fuel bounds. *)
Theorem foreachSymbolCallOccurrence_total (U : list string) (fuel : nat)
        (Callee : SymbolOccurrence) (w : World) :
  USRsWithin SymIndex U ->
  List.length U < fuel ->
  exists r, forall fuel', fuel <= fuel' -> resolver fuel' Callee w = Some r.
Proof.
  intros HU Hfuel.
  destruct (isCallable (getSymbol Callee)) eqn:Hc.
  - destruct (foreachSymbolCallOccurrence_outcome Callee w HU Hfuel Hc)
      as (r & E & _).
    exists r. intros fuel' Hle.
    eapply foreachSymbolCallOccurrence_fuel_le; eauto.
  - exists (false, w). intros fuel' _.
    unfold foreachSymbolCallOccurrence. now rewrite Hc.
Qed.

(** X12. A receiver that never answers [false] gets the answer [true] for
    every callable callee, on whichever path the resolver takes. *)
Theorem foreachSymbolCallOccurrence_accepting (U : list string) (fuel : nat)
        (Callee : SymbolOccurrence) (w : World) :
  USRsWithin SymIndex U ->
  List.length U < fuel ->
  isCallable (getSymbol Callee) = true ->
  (forall o s, fst (Receiver o s) = true) ->
  exists w', resolver fuel Callee w = Some (true, w').
Proof.
  intros HU Hfuel Hc Hacc.
  destruct (foreachSymbolCallOccurrence_outcome Callee w HU Hfuel Hc)
    as (r & E & [->|(w1 & w3 & select & USRs & _ & _ & _ & ->)]).
  - pose proof (deliver_accepting
                  (callsOf (getUSR (getSymbol Callee))) Hacc
                  (logEvent (QueryOccurrences (getUSR (getSymbol Callee))
                                              SymbolRole.Call) w)) as H.
    unfold queryAndDeliver in E.
    destruct (deliver Receiver _ _) as [b w']. simpl in H. subst b. eauto.
  - pose proof (deliverEach_accepting select USRs Hacc w3) as H.
    destruct (deliverEach Receiver select USRs w3) as [b w'].
    simpl in H. subst b. eauto.
Qed.


Lemma direct_receiverCalls (Callee : SymbolOccurrence) (w : World) :
  exists pre post,
    callsOf (getUSR (getSymbol Callee)) = pre ++ post /\
    receiverCalls (trace (snd (direct Callee w))) =
    receiverCalls (trace w) ++ pre /\
    (fst (direct Callee w) = true -> post = []).
Proof.
  destruct (direct Callee w) as [b w1] eqn:D. unfold queryAndDeliver in D.
  apply deliver_trace in D as (pre & post & E & T & Hb & _).
  exists pre, post. simpl. rewrite T. simpl.
  rewrite !receiverCalls_app, receiverCalls_map. simpl.
  now rewrite app_nil_r.
Qed.

(** X18. What the resolver hands to the receiver for a callable callee:
    occurrences the index yielded for a Call query, and nothing else; and
    when it answers [true], all the direct calls of the callee, in the order
    of the index, come first. *)
Theorem foreachSymbolCallOccurrence_hands_calls (U : list string) (fuel : nat)
        (Callee : SymbolOccurrence) (w : World) :
  USRsWithin SymIndex U ->
  List.length U < fuel ->
  isCallable (getSymbol Callee) = true ->
  exists Continue w' handed,
    resolver fuel Callee w = Some (Continue, w') /\
    receiverCalls (trace w') = receiverCalls (trace w) ++ handed /\
    (forall o, In o handed -> exists USR, In o (callsOf USR)) /\
    (Continue = true ->
     exists more, handed = callsOf (getUSR (getSymbol Callee)) ++ more).
Proof.
  intros HU Hfuel Hc.
  destruct (foreachSymbolCallOccurrence_outcome Callee w HU Hfuel Hc)
    as ([Continue w'] & E & Hr).
  exists Continue, w'.
  cut (exists handed,
          receiverCalls (trace w') = receiverCalls (trace w) ++ handed /\
          (forall o, In o handed -> exists USR, In o (callsOf USR)) /\
          (Continue = true ->
           exists more, handed = callsOf (getUSR (getSymbol Callee)) ++ more)).
  { intros (handed & H). exists handed. split; [exact E|exact H]. }
  destruct (direct_receiverCalls Callee w) as (pre & post & Ec & T & Hb).
  destruct Hr as [Hr|(w1 & w3 & select & USRs & D & Hq & Hsel & Hr)].
  - rewrite <- Hr in T, Hb. simpl in T, Hb.
    exists pre. split; [exact T|]. split.
    + intros o Ho. exists (getUSR (getSymbol Callee)).
      rewrite Ec. apply in_or_app. now left.
    + intros Hb'. exists []. rewrite app_nil_r, Ec, (Hb Hb').
      now rewrite app_nil_r.
  - rewrite D in T, Hb. simpl in T, Hb.
    specialize (Hb eq_refl). subst post. rewrite app_nil_r in Ec. subst pre.
    symmetry in Hr.
    apply deliverEach_receiverCalls in Hr as (p2 & q2 & E2 & T2 & _).
    exists (callsOf (getUSR (getSymbol Callee)) ++ p2). split; [|split].
    + rewrite T2, (queriesOnly_receiverCalls Hq), T. now rewrite app_assoc.
    + intros o Ho. apply in_app_or in Ho as [Ho|Ho]; [eauto|].
      assert (Hf : In o (flat_map select USRs))
        by (rewrite E2; apply in_or_app; now left).
      apply in_flat_map in Hf as [u [_ Hu]]. exists u. now apply Hsel.
    + intros _. eauto.
Qed.

End ResolverOutcome.

(** ** The closures: what they return and what they ask *)

Section ClosureResults.
Variable SymIndex : SymbolIndex.
Variable RS : Type.

Local Abbreviation World := (World RS).
Local Abbreviation usrOf := (fun o : SymbolOccurrence => getUSR (getSymbol o)).
Local Abbreviation cands := (candidates SymIndex).

Lemma Reach_compose (a b c : Symbol) :
  Reach SymIndex a b -> Reach SymIndex b c -> Reach SymIndex a c.
Proof.
  intros Hab Hbc. induction Hab as [a b Hb|a x b Hx Hxb IH].
  - eapply Reach_trans; eauto.
  - eapply Reach_trans; eauto.
Qed.

Lemma same_symbol (x y : Symbol) :
  getUSR x = getUSR y -> getSymbolKind x = getSymbolKind y -> x = y.
Proof. destruct x, y. simpl. now intros -> ->. Qed.

(** The queries of one run of [getBaseMethodsOrClassesImpl]: the one for the
    symbol, then one for each symbol it appends, in the order of the
    appends; the receiver is left alone. *)
Lemma getBaseMethodsOrClassesImpl_trace :
  forall fuel Sym L (w : World) L' w',
    getBaseMethodsOrClassesImpl SymIndex fuel Sym L w = Some (L', w') ->
    exists added,
      L' = L ++ added /\
      recvState w' = recvState w /\
      trace w' = trace w ++ map candidatesQuery (Sym :: added).
Proof.
  induction fuel as [|fuel IHf]; intros Sym L w L' w' H; [discriminate|].
  rewrite getBaseMethodsOrClassesImpl_unfold in H.
  assert (G : forall cs L (w : World) L' w',
             forEach cs (addEntry SymIndex fuel) L w = Some (L', w') ->
             exists added,
               L' = L ++ added /\
               recvState w' = recvState w /\
               trace w' = trace w ++ map candidatesQuery added).
  { clear H. induction cs as [|c cs IH]; intros L0 w0 L1 w1 H; simpl in H.
    - injection H as <- <-. exists []. now rewrite !app_nil_r.
    - unfold bind in H.
      destruct (addEntry SymIndex fuel c L0 w0) as [[L2 w2]|] eqn:EA;
        [|discriminate].
      apply IH in H as (a2 & -> & R2 & T2).
      unfold addEntry in EA.
      destruct (negb (containsSymWithUSR c L0)).
      + apply IHf in EA as (a1 & -> & R1 & T1).
        exists (c :: a1 ++ a2). rewrite <- !app_assoc. simpl.
        split; [reflexivity|]. split; [congruence|].
        rewrite T2, T1. simpl. now rewrite map_app, <- app_assoc.
      + injection EA as <- <-. exists a2. auto. }
  apply G in H as (added & -> & R & T).
  exists added. split; [reflexivity|]. split; [exact R|].
  rewrite T. simpl. now rewrite <- app_assoc.
Qed.

(** The same for [getAllRelatedOccursImpl]. *)
Lemma getAllRelatedOccursImpl_trace (RoleSet : SymbolRoleSet) :
  forall fuel Sym L (w : World) L' w',
    getAllRelatedOccursImpl SymIndex fuel Sym RoleSet L w = Some (L', w') ->
    exists added,
      L' = L ++ added /\
      recvState w' = recvState w /\
      trace w' =
      trace w ++ map (relatedQuery RoleSet) (getUSR Sym :: map usrOf added).
Proof.
  induction fuel as [|fuel IHf]; intros Sym L w L' w' H; [discriminate|].
  rewrite getAllRelatedOccursImpl_unfold in H.
  assert (G : forall cs L (w : World) L' w',
             forEach cs (addOccurEntry SymIndex fuel RoleSet) L w =
             Some (L', w') ->
             exists added,
               L' = L ++ added /\
               recvState w' = recvState w /\
               trace w' = trace w ++ map (relatedQuery RoleSet) (map usrOf added)).
  { clear H. induction cs as [|c cs IH]; intros L0 w0 L1 w1 H; simpl in H.
    - injection H as <- <-. exists []. simpl. now rewrite !app_nil_r.
    - unfold bind in H.
      destruct (addOccurEntry SymIndex fuel RoleSet c L0 w0)
        as [[L2 w2]|] eqn:EA; [|discriminate].
      apply IH in H as (a2 & -> & R2 & T2).
      unfold addOccurEntry in EA.
      destruct (negb (containsOccurWithUSR (getSymbol c) L0)).
      + apply IHf in EA as (a1 & -> & R1 & T1).
        exists (c :: a1 ++ a2). rewrite <- !app_assoc. simpl.
        split; [reflexivity|]. split; [congruence|].
        rewrite T2, T1. simpl. now rewrite !map_app, <- app_assoc.
      + injection EA as <- <-. exists a2. auto. }
  apply G in H as (added & -> & R & T).
  exists added. split; [reflexivity|]. split; [exact R|].
  rewrite T. simpl. now rewrite <- app_assoc.
Qed.

(** X14. The queries of [getBaseMethodsOrClasses] on a finite index: one for
    the symbol, then one for each symbol of the returned list, in the order
    of the list, and nothing else; the caller's receiver is not involved. *)
Theorem getBaseMethodsOrClasses_queries (U : list string) (fuel : nat)
        (Sym : Symbol) (w : World) :
  USRsWithin SymIndex U ->
  List.length U < fuel ->
  exists L w',
    getBaseMethodsOrClasses SymIndex fuel Sym w = Some (L, w') /\
    recvState w' = recvState w /\
    trace w' = trace w ++ map candidatesQuery (Sym :: L).
Proof.
  intros HU Hfuel.
  destruct (getBaseMethodsOrClasses_runs HU Hfuel Sym w) as (L & w' & E & _).
  exists L, w'. split; [exact E|].
  apply getBaseMethodsOrClassesImpl_trace in E as (a & Ea & R & T).
  simpl in Ea. subst a. auto.
Qed.

(** X15. The queries of [getAllRelatedOccursImpl] from the empty list, on a
    finite index: one related-occurrence query for the symbol, then one for
    the symbol of each occurrence of the returned list, in order, all under
    the role set it was given. *)
Theorem getAllRelatedOccursImpl_queries (U : list string) (fuel : nat)
        (Sym : Symbol) (RoleSet : SymbolRoleSet) (w : World) :
  USRsWithin SymIndex U ->
  List.length U < fuel ->
  exists L w',
    getAllRelatedOccursImpl SymIndex fuel Sym RoleSet [] w = Some (L, w') /\
    recvState w' = recvState w /\
    trace w' =
    trace w ++ map (relatedQuery RoleSet) (getUSR Sym :: map usrOf L).
Proof.
  intros HU Hfuel.
  destruct (getAllRelatedOccursImpl_runs HU Hfuel RoleSet Sym w)
    as (L & w' & E & _).
  exists L, w'. split; [exact E|].
  apply getAllRelatedOccursImpl_trace in E as (a & Ea & R & T).
  simpl in Ea. subst a. auto.
Qed.

(** X16. Where a USR identifies a symbol among those reached from [Sym],
    [getBaseMethodsOrClasses] returns the transitive closure: a symbol is in
    the list exactly when one or more base or override steps lead to it, and
    it is there once. *)
Theorem getBaseMethodsOrClasses_is_closure (U : list string) (fuel : nat)
        (Sym : Symbol) (w : World) :
  USRsWithin SymIndex U ->
  List.length U < fuel ->
  (forall x y, Reach SymIndex Sym x -> Reach SymIndex Sym y ->
               getUSR x = getUSR y -> getSymbolKind x = getSymbolKind y) ->
  exists L w',
    getBaseMethodsOrClasses SymIndex fuel Sym w = Some (L, w') /\
    NoDup L /\
    forall y, In y L <-> Reach SymIndex Sym y.
Proof.
  intros HU Hfuel Hkind.
  destruct (getBaseMethodsOrClasses_runs HU Hfuel Sym w)
    as (L & w' & E & _ & Hn & Hp & Hclosed & Hm).
  exists L, w'. split; [exact E|]. split.
  { apply NoDup_map_inv in Hn. exact Hn. }
  assert (Hin : forall c, Reach SymIndex Sym c ->
                          In (getUSR c) (map getUSR L) -> In c L).
  { intros c Hc Hu. apply in_map_iff in Hu as [x [Ex Hx]].
    rewrite <- (same_symbol x c Ex); [exact Hx|].
    apply Hkind; auto. }
  assert (G : forall s y, Reach SymIndex s y ->
                          (s = Sym \/ In s L) -> In y L).
  { intros s y Hr. induction Hr as [s c Hc|s c y Hc Hr IH]; intros Hs.
    - destruct Hs as [->|Hs].
      + apply Hin; [now apply Reach_step|auto].
      + apply Hin; [|exact (Hclosed s c Hs Hc)].
        eapply Reach_compose; [apply Hp; eassumption|now apply Reach_step].
    - apply IH. right. destruct Hs as [->|Hs].
      + apply Hin; [now apply Reach_step|auto].
      + apply Hin; [|exact (Hclosed s c Hs Hc)].
        eapply Reach_compose; [apply Hp; eassumption|now apply Reach_step]. }
  intros y. split; [apply Hp|]. intros Hy. apply (G Sym y Hy). now left.
Qed.

(** X17. On a finite index [getBaseMethodsOrClasses] returns the empty list
    exactly for a symbol the index yields no candidate for. *)
Theorem getBaseMethodsOrClasses_empty_iff (U : list string) (fuel : nat)
        (Sym : Symbol) (w : World) :
  USRsWithin SymIndex U ->
  List.length U < fuel ->
  ((exists w', getBaseMethodsOrClasses SymIndex fuel Sym w = Some ([], w')) <->
   candidates SymIndex Sym = []).
Proof.
  intros HU Hfuel.
  destruct (getBaseMethodsOrClasses_runs HU Hfuel Sym w)
    as (L & w' & E & _ & _ & Hp & _ & Hm).
  split.
  - intros [w'' E']. rewrite E in E'. injection E' as -> _.
    destruct (candidates SymIndex Sym) as [|c cs]; [reflexivity|].
    destruct (Hm c (or_introl eq_refl)).
  - intros Hnil. exists w'. rewrite E. do 2 f_equal.
    destruct L as [|x L]; [reflexivity|].
    specialize (Hp x (or_introl eq_refl)).
    destruct Hp as [c Hc|c y Hc _]; rewrite Hnil in Hc; destruct Hc.
Qed.

End ClosureResults.

(** ** The further statements at the scenarios *)

Module MoreWitnesses.
Import Scenario ConstructionScenario.

Lemma overtaking_at_busy_wrapper :
  Other busy = Some [ProcessingAddedPending 1%N] /\
  _wait (unitIsOutOfDate unitMain 7%N hintMain true busy) =
  mkAsyncIndexDelegate
    (Some [ProcessingAddedPending 1%N;
           UnitIsOutOfDate unitMain 7%N hintMain true;
           ProcessedStoreUnit (mkStoreUnitInfo "a.o" "a.c")])
    [].
Proof.
  split; [reflexivity|].
  exact (proj1 (@unitIsOutOfDate_overtakes_queue busy _ unitMain 7%N hintMain
                  eq_refl)).
Defined.

Lemma facade_fields :
  exists Impl,
    fst facade = Some Impl /\
    Construction.SymIndex Impl <> None /\
    Construction.IndexStore Impl <> None.
Proof.
  eexists. split; [reflexivity|].
  destruct (@ConstructionProperties.create_fully_initialised
              welcoming "/tmp/store" "/tmp/db" (Some []) false false true true
              false None "" _ eq_refl)
    as (lib & _ & _ & _ & _ & _ & HS & _ & HD).
  rewrite HS, HD. split; discriminate.
Defined.

Lemma facade_with_directory_error :
  (exists Impl, fst facade = Some Impl) /\
  snd facade =
  "could not create directories for data store path /tmp/store: Permission denied".
Proof.
  exact (@ConstructionProperties.create_succeeds_with_directory_error
           welcoming "/tmp/store" "/tmp/db" (Some []) false false true true
           false None "" "libIndexStore.dylib" "Permission denied"
           eq_refl eq_refl eq_refl eq_refl eq_refl eq_refl).
Defined.

Lemma no_library_no_facade :
  Construction.create withoutLibrary "/tmp/store" "/tmp/db" None false true
                      false false false None "stale" =
  (None, "could not determine indexstore library").
Proof.
  exact (@ConstructionProperties.create_without_library
           withoutLibrary "/tmp/store" "/tmp/db" None false true false false
           false None "stale" eq_refl eq_refl
           (Construction.create_directories withoutLibrary)
           (Construction.indexStoreCreate withoutLibrary)
           (Construction.datastoreCreate withoutLibrary)).
Defined.

Lemma total_at_dynamic_call :
  exists r, forall fuel', fuel <= fuel' ->
    foreachSymbolCallOccurrence callableKind index collect fuel' callX w0 =
    Some r.
Proof.
  exact (@foreachSymbolCallOccurrence_total callableKind index _ collect
           U fuel callX w0 (storeIndex_within store) (Nat.lt_succ_diag_r _)).
Defined.

Lemma accepting_at_dynamic_call :
  (forall o s, fst (collect o s) = true) /\
  exists w', resolve callX = Some (true, w').
Proof.
  split; [reflexivity|].
  exact (@foreachSymbolCallOccurrence_accepting callableKind index _ collect
           U fuel callX w0 (storeIndex_within store) (Nat.lt_succ_diag_r _)
           eq_refl (fun o s => eq_refl)).
Defined.


Lemma handed_at_dynamic_call :
  exists Continue w' handed,
    resolve callX = Some (Continue, w') /\
    receiverCalls (trace w') = receiverCalls (trace w0) ++ handed /\
    (forall o, In o handed -> exists USR, In o (callsOf index USR)).
Proof.
  destruct (@foreachSymbolCallOccurrence_hands_calls callableKind index _
              collect U fuel callX w0
              (storeIndex_within store) (Nat.lt_succ_diag_r _) eq_refl)
    as (b & w' & handed & E & T & Hin & _).
  exists b, w', handed. auto.
Defined.

Lemma queries_for_bases_of_D :
  exists L w',
    getBaseMethodsOrClasses index fuel D w0 = Some (L, w') /\
    recvState w' = recvState w0 /\
    trace w' = trace w0 ++ map candidatesQuery (D :: L).
Proof.
  exact (@getBaseMethodsOrClasses_queries index _ U fuel D w0
           (storeIndex_within store) (Nat.lt_succ_diag_r _)).
Defined.

Lemma queries_for_overrides_of_pm :
  exists L w',
    getAllRelatedOccursImpl index fuel pm SymbolRole.RelationOverrideOf [] w0 =
    Some (L, w') /\
    recvState w' = recvState w0 /\
    trace w' =
    trace w0 ++ map (relatedQuery SymbolRole.RelationOverrideOf)
                    (getUSR pm :: map (fun o => getUSR (getSymbol o)) L).
Proof.
  exact (@getAllRelatedOccursImpl_queries index _ U fuel pm
           SymbolRole.RelationOverrideOf w0
           (storeIndex_within store) (Nat.lt_succ_diag_r _)).
Defined.

Lemma reached_from_m (x : Symbol) :
  Reach index m x -> getSymbolKind x = InstanceMethod.
Proof.
  assert (RA : forall c, Reach index m_A c -> False).
  { intros c H. inversion H as [c' Hc|c' y Hc Hr]; vm_compute in Hc; exact Hc. }
  assert (RB : forall c, Reach index m_B c -> c = m_A).
  { intros c H. inversion H as [c' Hc|c' y Hc Hr]; vm_compute in Hc;
      destruct Hc as [<-|[]]; [reflexivity|]. exfalso. eauto. }
  intros H. inversion H as [c' Hc|c' y Hc Hr]; vm_compute in Hc;
    destruct Hc as [<-|[]]; [reflexivity|].
  apply RB in Hr. now subst x.
Qed.

Lemma closure_at_m :
  exists L w',
    getBaseMethodsOrClasses index fuel m w0 = Some (L, w') /\
    NoDup L /\
    forall y, In y L <-> Reach index m y.
Proof.
  apply (@getBaseMethodsOrClasses_is_closure index _ U fuel m w0
           (storeIndex_within store) (Nat.lt_succ_diag_r _)).
  intros x y Hx Hy _.
  now rewrite (reached_from_m Hx), (reached_from_m Hy).
Defined.

Lemma no_bases_of_A :
  candidates index A = [] /\
  exists w', getBaseMethodsOrClasses index fuel A w0 = Some ([], w').
Proof.
  split; [reflexivity|].
  apply (proj2 (@getBaseMethodsOrClasses_empty_iff index _ U fuel A w0
                  (storeIndex_within store) (Nat.lt_succ_diag_r _))).
  reflexivity.
Defined.

End MoreWitnesses.
